(** * Intelligent Code Review Assistant: analysis aggregation and
      feedback-driven ranking

    A shallow embedding of the Go packages [models], [ml] (data collector and
    learning engine), [cmd] (ApplyLearning) and [analyzer] (Analyze), with the
    properties of the feedback store, the ranking engine and the aggregation
    of findings.

    Go values are rendered as follows.
    - [string] is [string]; [int] is [Z]; [bool] is [bool].
    - [float64] is the primitive binary64 type [float]: the arithmetic and the
      comparisons are the IEEE 754 ones the Go program runs.
    - [map[string][]models.LearningData] is [gmap string (list LearningData)].
    - [[]*models.Issue] is [list Issue]: every finding of a run is a distinct
      object, so a slice of pointers is rendered as the list of the values
      they point to, and an in-place update as a function on the value.
    - [error] is [option string], [None] being [nil]; the text of an error of
      the operating system or of a library is left out of the message.
    - The [*Issue] of a [models.LearningData] is never [nil]: the store only
      ever receives records from [RecordIssue]. *)

From Stdlib Require Import ZArith Lia Floats Uint63.
From stdpp Require Import base option list gmap strings pretty sorting.

Set Warnings "-inexact-float".
Local Open Scope Z_scope.

(* ===================================================================== *)
(** * Package models *)
(* ===================================================================== *)

(** [models.Issue]. *)
Record Issue := mkIssue {
  File : string;
  Line : Z;
  Column : Z;
  Message : string;
  Category : string;
  Severity : string;
  Confidence : string;
  Suggestion : string;
  Code : string;
  Rule : string
}.

(** [models.LearningData]; [Timestamp] is the clock reading, in any unit. *)
Record LearningData := mkLearningData {
  LD_Issue : Issue;
  Accepted : bool;
  Repository : string;
  Timestamp : Z
}.

(** [models.File], the fields the analyzer reads. *)
Record SourceFile := mkSourceFile {
  Path : string;
  RelPath : string
}.

(** [config.Config], the fields read by the modelled packages. *)
Record Config := mkConfig {
  Verbose : bool;
  EnableLearning : bool;
  ModelPath : string
}.

Definition error := option string.

#[global] Instance Issue_eq_dec : EqDecision Issue.
Proof. solve_decision. Defined.

#[global] Instance LearningData_eq_dec : EqDecision LearningData.
Proof. solve_decision. Defined.

Definition set_Confidence (issue : Issue) (c : string) : Issue :=
  mkIssue (File issue) (Line issue) (Column issue) (Message issue)
          (Category issue) (Severity issue) c (Suggestion issue)
          (Code issue) (Rule issue).

Definition set_File (issue : Issue) (f : string) : Issue :=
  mkIssue f (Line issue) (Column issue) (Message issue)
          (Category issue) (Severity issue) (Confidence issue)
          (Suggestion issue) (Code issue) (Rule issue).

Definition set_Accepted (d : LearningData) (a : bool) : LearningData :=
  mkLearningData (LD_Issue d) a (Repository d) (Timestamp d).

(* ===================================================================== *)
(** * float64 *)
(* ===================================================================== *)

(** [float64(n)] for an [int] [n] with [0 <= n < 2^63], which is the range of
    a length or of a counter that started at zero. *)
Definition float64 (n : Z) : float := of_uint63 (Uint63.of_Z n).

(** [x >= y] and [x > y] on float64, as Go evaluates them. *)
Definition fge (x y : float) : bool := PrimFloat.leb y x.
Definition fgt (x y : float) : bool := PrimFloat.ltb y x.
Definition flt (x y : float) : bool := PrimFloat.ltb x y.

(* ===================================================================== *)
(** * Package ml: the data collector (feedback store) *)
(* ===================================================================== *)

(** The data directory named by the configuration, as the collector sees it:
    whether [os.MkdirAll] and [os.WriteFile] succeed there, and the state of
    [learning_data.json].  The JSON encoding of the store is rendered as the
    store itself. *)
Inductive DataFile :=
  | NoFile
  | Unreadable
  | Malformed
  | Stored (m : gmap string (list LearningData)).

Record World := mkWorld {
  mkdir_ok : bool;
  write_ok : bool;
  data_file : DataFile
}.

(** [ml.DataCollector]. *)
Record DataCollector := mkDataCollector {
  dc_config : Config;
  dataPath : string;
  issueData : gmap string (list LearningData)
}.

Definition set_issueData (c : DataCollector)
    (m : gmap string (list LearningData)) : DataCollector :=
  mkDataCollector (dc_config c) (dataPath c) m.

Definition NewDataCollector (cfg : Config) : DataCollector :=
  mkDataCollector cfg
    (if bool_decide (ModelPath cfg = "") then "data" else ModelPath cfg)
    ∅.

(** [json.Unmarshal] into the map keeps the entries the document does not
    mention. *)
Definition loadData (c : DataCollector) (w : World) : DataCollector * error :=
  match data_file w with
  | NoFile => (set_issueData c ∅, None)
  | Unreadable => (c, Some "failed to read learning data")
  | Malformed => (c, Some "failed to parse learning data")
  | Stored m => (set_issueData c (m ∪ issueData c), None)
  end.

Definition Initialize (c : DataCollector) (w : World) : DataCollector * error :=
  if mkdir_ok w then loadData c w
  else (c, Some "failed to create data directory").

Definition saveData (c : DataCollector) (w : World) : World * error :=
  if write_ok w
  then (mkWorld (mkdir_ok w) (write_ok w) (Stored (issueData c)), None)
  else (w, Some "failed to write learning data").

(** [now] is the reading of [time.Now()]. *)
Definition RecordIssue (c : DataCollector) (w : World) (issue : Issue)
    (repository : string) (now : Z) : DataCollector * World * error :=
  if negb (EnableLearning (dc_config c)) then (c, w, None)
  else
    let learningData := mkLearningData issue false repository now in
    let c' := set_issueData c
                (<[Rule issue := default [] (issueData c !! Rule issue)
                                   ++ [learningData]]> (issueData c)) in
    let '(w', err) := saveData c' w in
    (c', w', err).

(** The identifier a record is looked up by:
    [File + ":" + fmt.Sprint(Line) + ":" + Message]. *)
Definition issue_id (issue : Issue) : string :=
  File issue +:+ ":" +:+ pretty (Line issue) +:+ ":" +:+ Message issue.

(** The inner loop of [RecordFeedback]: the index of the first record of
    [issues] whose identifier is [issueID]. *)
Fixpoint find_record (issueID : string) (issues : list LearningData)
    : option nat :=
  match issues with
  | [] => None
  | data :: rest =>
      if bool_decide (issue_id (LD_Issue data) = issueID) then Some 0%nat
      else S <$> find_record issueID rest
  end.

(** The outer loop of [RecordFeedback].  A [range] over a Go map visits the
    keys in an order the runtime chooses; [order] is that order. *)
Fixpoint find_rule (issueID : string) (m : gmap string (list LearningData))
    (order : list string) : option (string * nat) :=
  match order with
  | [] => None
  | ruleID :: rest =>
      match find_record issueID (default [] (m !! ruleID)) with
      | Some i => Some (ruleID, i)
      | None => find_rule issueID m rest
      end
  end.

(** [order] enumerates the keys of [m], each once. *)
Definition range_order {V} (m : gmap string V) (order : list string) : Prop :=
  NoDup order ∧ ∀ k, k ∈ order ↔ is_Some (m !! k).

Definition RecordFeedback (order : list string) (c : DataCollector)
    (w : World) (issueID : string) (accepted : bool)
    : DataCollector * World * error :=
  if negb (EnableLearning (dc_config c)) then (c, w, None)
  else
    match find_rule issueID (issueData c) order with
    | Some (ruleID, i) =>
        let c' := set_issueData c
                    (alter (alter (λ d, set_Accepted d accepted) i)
                           ruleID (issueData c)) in
        let '(w', err) := saveData c' w in
        (c', w', err)
    | None => (c, w, Some ("issue not found: " +:+ issueID))
    end.

(** The counting loop of [GetAcceptanceRate]. *)
Definition count_accepted (issues : list LearningData) : Z :=
  foldl (λ accepted data, if Accepted data then accepted + 1 else accepted)
        0 issues.

Definition len {A} (l : list A) : Z := Z.of_nat (length l).

Definition GetAcceptanceRate (c : DataCollector) (ruleID : string) : float :=
  match issueData c !! ruleID with
  | None => 0.5%float
  | Some issues =>
      if len issues =? 0 then 0.5%float
      else (float64 (count_accepted issues) / float64 (len issues))%float
  end.

Definition GetRuleConfidence (c : DataCollector) (ruleID : string) : string :=
  let rate := GetAcceptanceRate c ruleID in
  if fge rate 0.8%float then "high"
  else if fge rate 0.5%float then "medium"
  else "low".

(** The exchange sort of [GetTopRules]: the inner loop carries [rates[i]]
    along the rest of the slice, exchanging it with every later entry of
    greater rate; the outer loop does so for every position in turn. *)
Fixpoint top_inner (x : string * float) (rest : list (string * float))
    : (string * float) * list (string * float) :=
  match rest with
  | [] => (x, [])
  | y :: rest' =>
      if fgt (snd y) (snd x)
      then let '(x', r) := top_inner y rest' in (x', x :: r)
      else let '(x', r) := top_inner x rest' in (x', y :: r)
  end.

Fixpoint top_outer (fuel : nat) (rates : list (string * float))
    : list (string * float) :=
  match fuel, rates with
  | S fuel', x :: rest =>
      let '(x', rest') := top_inner x rest in x' :: top_outer fuel' rest'
  | _, _ => rates
  end.

Definition GetTopRules (order : list string) (c : DataCollector) (n : Z)
    : list string :=
  let rates := (λ ruleID, (ruleID, GetAcceptanceRate c ruleID)) <$> order in
  let rates := top_outer (length rates) rates in
  fst <$> take (Z.to_nat n) rates.

(* ===================================================================== *)
(** * The standard library's sort.Slice *)
(* ===================================================================== *)

(** The shape of [sort.Slice] once the [less] closure, which reads the slice
    it is sorting, is rendered as a comparison of elements. *)
Definition SliceSort : Type := ∀ A : Type, (A → A → bool) → list A → list A.

(** What the documentation of [sort.Slice] asks of [less]: a transitive
    ordering, with incomparability transitive as well.  [less x x] never
    holds. *)
Record less_ok {A} (less : A → A → bool) : Prop := {
  less_irrefl : ∀ x, less x x = false;
  less_trans : ∀ x y z,
    less x y = true → less y z = true → less x z = true;
  less_incomp : ∀ x y z,
    less x y = false → less y z = false → less x z = false
}.

(** No element sorts before one that precedes it. *)
Definition sorted_by {A} (less : A → A → bool) (l : list A) : Prop :=
  ∀ (i j : nat) x y, (i < j)%nat → l !! i = Some x → l !! j = Some y →
    less y x = false.

(** What the documentation of [sort.Slice] promises: the elements are
    rearranged into sorted order.  It promises nothing on the order of equal
    elements. *)
Definition SliceContract (srt : SliceSort) : Prop :=
  ∀ A (less : A → A → bool) (l : list A),
    less_ok less → srt A less l ≡ₚ l ∧ sorted_by less (srt A less l).

(** The implementation of [sort.Slice] in the Go distribution (package sort,
    pattern-defeating quicksort, Go 1.19 and later), on a slice held as a
    list, indices being [int]s.  Every loop is given its number of rounds as
    fuel. *)
Module GoSort.
Section Sort.
Context {A : Type} (less : A → A → bool).

Definition Less (data : list A) (i j : Z) : bool :=
  match data !! Z.to_nat i, data !! Z.to_nat j with
  | Some x, Some y => less x y
  | _, _ => false
  end.

Definition Swap (data : list A) (i j : Z) : list A :=
  match data !! Z.to_nat i, data !! Z.to_nat j with
  | Some x, Some y => <[Z.to_nat i := y]> (<[Z.to_nat j := x]> data)
  | _, _ => data
  end.

(** [for j := i; j > a && data.Less(j, j-1); j-- { data.Swap(j, j-1) }] *)
Fixpoint insertion_inner (fuel : nat) (data : list A) (a j : Z) : list A :=
  match fuel with
  | O => data
  | S fuel' =>
      if (a <? j) && Less data j (j - 1)
      then insertion_inner fuel' (Swap data j (j - 1)) a (j - 1)
      else data
  end.

(** [for i := a + 1; i < b; i++ { ... }], entered with the current [i]. *)
Fixpoint insertion_outer (fuel : nat) (data : list A) (a b i : Z) : list A :=
  match fuel with
  | O => data
  | S fuel' =>
      if i <? b
      then insertion_outer fuel'
             (insertion_inner (Z.to_nat (i - a)) data a i) a b (i + 1)
      else data
  end.

Definition insertionSort_func (data : list A) (a b : Z) : list A :=
  insertion_outer (Z.to_nat (b - a)) data a b (a + 1).

Fixpoint siftDown_loop (fuel : nat) (data : list A) (root hi first : Z)
    : list A :=
  match fuel with
  | O => data
  | S fuel' =>
      let child := 2 * root + 1 in
      if hi <=? child then data
      else
        let child :=
          if (child + 1 <? hi) && Less data (first + child) (first + child + 1)
          then child + 1 else child in
        if negb (Less data (first + root) (first + child)) then data
        else siftDown_loop fuel' (Swap data (first + root) (first + child))
                           child hi first
  end.

Definition siftDown_func (data : list A) (lo hi first : Z) : list A :=
  siftDown_loop (Z.to_nat hi) data lo hi first.

(** [for i := (hi - 1) / 2; i >= 0; i-- { siftDown_func(data, i, hi, first) }] *)
Fixpoint heap_build (fuel : nat) (data : list A) (i hi first : Z) : list A :=
  match fuel with
  | O => data
  | S fuel' =>
      if 0 <=? i
      then heap_build fuel' (siftDown_func data i hi first) (i - 1) hi first
      else data
  end.

(** [for i := hi - 1; i >= 0; i-- { data.Swap(first, first+i);
    siftDown_func(data, lo, i, first) }] *)
Fixpoint heap_pop (fuel : nat) (data : list A) (i lo first : Z) : list A :=
  match fuel with
  | O => data
  | S fuel' =>
      if 0 <=? i
      then heap_pop fuel'
             (siftDown_func (Swap data first (first + i)) lo i first)
             (i - 1) lo first
      else data
  end.

Definition heapSort_func (data : list A) (a b : Z) : list A :=
  let first := a in
  let lo := 0 in
  let hi := b - a in
  let data := heap_build (Z.to_nat hi + 1) data (Z.quot (hi - 1) 2) hi first in
  heap_pop (Z.to_nat hi + 1) data (hi - 1) lo first.

Inductive sortedHint := unknownHint | increasingHint | decreasingHint.

(** [for i <= j && cond(i) { i++ }] *)
Fixpoint scan_up (fuel : nat) (cond : Z → bool) (i j : Z) : Z :=
  match fuel with
  | O => i
  | S fuel' => if (i <=? j) && cond i then scan_up fuel' cond (i + 1) j else i
  end.

(** [for i <= j && cond(j) { j-- }] *)
Fixpoint scan_down (fuel : nat) (cond : Z → bool) (i j : Z) : Z :=
  match fuel with
  | O => j
  | S fuel' => if (i <=? j) && cond j then scan_down fuel' cond i (j - 1) else j
  end.

Definition rounds (i j : Z) : nat := Z.to_nat (j - i + 1).

(** The main loop of [partition_func]; yields the slice and [j]. *)
Fixpoint partition_loop (fuel : nat) (data : list A) (a i j : Z)
    : list A * Z :=
  match fuel with
  | O => (data, j)
  | S fuel' =>
      let i := scan_up (rounds i j) (λ i, Less data i a) i j in
      let j := scan_down (rounds i j) (λ j, negb (Less data j a)) i j in
      if j <? i then (data, j)
      else partition_loop fuel' (Swap data i j) a (i + 1) (j - 1)
  end.

Definition partition_func (data : list A) (a b pivot : Z)
    : list A * Z * bool :=
  let data := Swap data a pivot in
  let i := a + 1 in
  let j := b - 1 in
  let i := scan_up (rounds i j) (λ i, Less data i a) i j in
  let j := scan_down (rounds i j) (λ j, negb (Less data j a)) i j in
  if j <? i then (Swap data j a, j, true)
  else
    let data := Swap data i j in
    let '(data, j) := partition_loop (rounds (i + 1) (j - 1) + 1) data a
                                     (i + 1) (j - 1) in
    (Swap data j a, j, false).

(** The loop of [partitionEqual_func]; yields the slice and [i]. *)
Fixpoint partitionEqual_loop (fuel : nat) (data : list A) (a i j : Z)
    : list A * Z :=
  match fuel with
  | O => (data, i)
  | S fuel' =>
      let i := scan_up (rounds i j) (λ i, negb (Less data a i)) i j in
      let j := scan_down (rounds i j) (λ j, Less data a j) i j in
      if j <? i then (data, i)
      else partitionEqual_loop fuel' (Swap data i j) a (i + 1) (j - 1)
  end.

Definition partitionEqual_func (data : list A) (a b pivot : Z) : list A * Z :=
  let data := Swap data a pivot in
  partitionEqual_loop (rounds (a + 1) (b - 1) + 1) data a (a + 1) (b - 1).

(** [for j := i - 1; j >= 1; j-- { if !data.Less(j, j-1) { break };
    data.Swap(j, j-1) }] *)
Fixpoint shift_left (fuel : nat) (data : list A) (j : Z) : list A :=
  match fuel with
  | O => data
  | S fuel' =>
      if (1 <=? j) && Less data j (j - 1)
      then shift_left fuel' (Swap data j (j - 1)) (j - 1)
      else data
  end.

(** [for j := i + 1; j < b; j++ { if !data.Less(j, j-1) { break };
    data.Swap(j, j-1) }] *)
Fixpoint shift_right (fuel : nat) (data : list A) (b j : Z) : list A :=
  match fuel with
  | O => data
  | S fuel' =>
      if (j <? b) && Less data j (j - 1)
      then shift_right fuel' (Swap data j (j - 1)) b (j + 1)
      else data
  end.

(** The [maxSteps] rounds of [partialInsertionSort_func]. *)
Fixpoint partial_steps (steps : nat) (data : list A) (a b i : Z)
    : list A * bool :=
  match steps with
  | O => (data, false)
  | S steps' =>
      let i := scan_up (Z.to_nat (b - i))
                       (λ i, negb (Less data i (i - 1))) i (b - 1) in
      if i =? b then (data, true)
      else if b - a <? 50 then (data, false)
      else
        let data := Swap data i (i - 1) in
        let data :=
          if 2 <=? i - a then shift_left (Z.to_nat i) data (i - 1) else data in
        let data :=
          if 2 <=? b - i then shift_right (Z.to_nat (b - i)) data b (i + 1)
          else data in
        partial_steps steps' data a b i
  end.

Definition partialInsertionSort_func (data : list A) (a b : Z)
    : list A * bool :=
  partial_steps 5 data a b (a + 1).

(** [xorshift.Next] on a [uint64]. *)
Definition xorshift_Next (r : Z) : Z :=
  let r := Z.lxor r (Z.shiftl r 13 mod 2 ^ 64) in
  let r := Z.lxor r (Z.shiftr r 7) in
  Z.lxor r (Z.shiftl r 17 mod 2 ^ 64).

(** [bits.Len]. *)
Definition bits_Len (x : Z) : Z := if x =? 0 then 0 else Z.log2 x + 1.

(** [uint(1 << shift)]: the length of a slice is an [int], so [shift] is at
    most 63 and nothing is lost at 64 bits. *)
Definition nextPowerOfTwo (length : Z) : Z :=
  Z.shiftl 1 (bits_Len length).

Fixpoint breakPatterns_loop (fuel : nat) (data : list A)
    (a length idx modulus random i : Z) : list A :=
  match fuel with
  | O => data
  | S fuel' =>
      if i <? 3 then
        let random := xorshift_Next random in
        let other := Z.land random (modulus - 1) in
        let other := if length <=? other then other - length else other in
        breakPatterns_loop fuel' (Swap data (idx - 1 + i) (a + other))
                           a length idx modulus random (i + 1)
      else data
  end.

Definition breakPatterns_func (data : list A) (a b : Z) : list A :=
  let length := b - a in
  if 8 <=? length then
    breakPatterns_loop 3 data a length (a + Z.quot length 4 * 2 - 1)
                       (nextPowerOfTwo length) length 0
  else data.

Definition order2_func (data : list A) (a b swaps : Z) : Z * Z * Z :=
  if Less data b a then (b, a, swaps + 1) else (a, b, swaps).

Definition median_func (data : list A) (a b c swaps : Z) : Z * Z :=
  let '(a, b, swaps) := order2_func data a b swaps in
  let '(b, c, swaps) := order2_func data b c swaps in
  let '(a, b, swaps) := order2_func data a b swaps in
  (b, swaps).

Definition medianAdjacent_func (data : list A) (a swaps : Z) : Z * Z :=
  median_func data (a - 1) a (a + 1) swaps.

Definition choosePivot_func (data : list A) (a b : Z) : Z * sortedHint :=
  let l := b - a in
  let i := a + Z.quot l 4 * 1 in
  let j := a + Z.quot l 4 * 2 in
  let k := a + Z.quot l 4 * 3 in
  let '(j, swaps) :=
    if 8 <=? l then
      let '(i, j, k, swaps) :=
        if 50 <=? l then
          let '(i, swaps) := medianAdjacent_func data i 0 in
          let '(j, swaps) := medianAdjacent_func data j swaps in
          let '(k, swaps) := medianAdjacent_func data k swaps in
          (i, j, k, swaps)
        else (i, j, k, 0) in
      median_func data i j k swaps
    else (j, 0) in
  if swaps =? 0 then (j, increasingHint)
  else if swaps =? 4 * 3 then (j, decreasingHint)
  else (j, unknownHint).

(** [for i < j { data.Swap(i, j); i++; j-- }] *)
Fixpoint reverse_loop (fuel : nat) (data : list A) (i j : Z) : list A :=
  match fuel with
  | O => data
  | S fuel' =>
      if i <? j then reverse_loop fuel' (Swap data i j) (i + 1) (j - 1)
      else data
  end.

Definition reverseRange_func (data : list A) (a b : Z) : list A :=
  reverse_loop (Z.to_nat (b - a)) data a (b - 1).

Definition is_increasing (h : sortedHint) : bool :=
  match h with increasingHint => true | _ => false end.

Definition is_decreasing (h : sortedHint) : bool :=
  match h with decreasingHint => true | _ => false end.

(** [pdqsort_func]: one unit of fuel per round of its loop and per level
    of its recursion; [wasBalanced] and [wasPartitioned] are the loop's
    variables, both true on entry. *)
Fixpoint pdqsort_loop (fuel : nat) (data : list A) (a b limit : Z)
    (wasBalanced wasPartitioned : bool) : list A :=
  match fuel with
  | O => data
  | S fuel' =>
      let length := b - a in
      if length <=? 12 then insertionSort_func data a b
      else if limit =? 0 then heapSort_func data a b
      else
        let '(data, limit) :=
          if negb wasBalanced then (breakPatterns_func data a b, limit - 1)
          else (data, limit) in
        let '(pivot, hint) := choosePivot_func data a b in
        let '(data, pivot, hint) :=
          if is_decreasing hint
          then (reverseRange_func data a b, (b - 1) - (pivot - a),
                increasingHint)
          else (data, pivot, hint) in
        let '(data, done) :=
          if wasBalanced && wasPartitioned && is_increasing hint
          then partialInsertionSort_func data a b
          else (data, false) in
        if done then data
        else if (0 <? a) && negb (Less data (a - 1) pivot) then
          let '(data, mid) := partitionEqual_func data a b pivot in
          pdqsort_loop fuel' data mid b limit wasBalanced wasPartitioned
        else
          let '(data, mid, alreadyPartitioned) :=
            partition_func data a b pivot in
          let leftLen := mid - a in
          let rightLen := b - mid in
          let balanceThreshold := Z.quot length 8 in
          if leftLen <? rightLen then
            let data := pdqsort_loop fuel' data a mid limit true true in
            pdqsort_loop fuel' data (mid + 1) b limit
                         (balanceThreshold <=? leftLen) alreadyPartitioned
          else
            let data := pdqsort_loop fuel' data (mid + 1) b limit true true in
            pdqsort_loop fuel' data a mid limit
                         (balanceThreshold <=? rightLen) alreadyPartitioned
  end.

Definition pdqsort_func (data : list A) (a b limit : Z) : list A :=
  pdqsort_loop (Z.to_nat (b - a) + 1) data a b limit true true.

(** [sort.Slice(x, less)]. *)
Definition Slice (x : list A) : list A :=
  let length := len x in
  let limit := bits_Len length in
  pdqsort_func x 0 length limit.
End Sort.
End GoSort.

Definition go_sort_Slice : SliceSort := λ A less x, GoSort.Slice less x.

(** ** Segments of a slice

    The vocabulary of the facts about [sort.Slice].  The sort works on a
    slice in place, between two indices: [get] reads an index (with a default
    where the slice has none), [inb] says that the slice has the index, and
    [le x y] that [less] does not put [y] before [x]. *)
Module Seg.
Section Defs.
Context {A : Type} (less : A → A → bool) (d : A).

Definition get (data : list A) (i : Z) : A := default d (data !! Z.to_nat i).

Definition inb (data : list A) (i : Z) : Prop := 0 ≤ i < len data.

Definition le (x y : A) : Prop := less y x = false.

(** [data'] holds the elements of [data], the same ones as [data] outside
    [a, b), and at every index of [a, b) an element [data] has in [a, b). *)
Definition frame (a b : Z) (data data' : list A) : Prop :=
  data' ≡ₚ data
  ∧ (∀ k, inb data k → k < a ∨ b ≤ k → get data' k = get data k)
  ∧ (∀ k, a ≤ k < b → ∃ k', a ≤ k' < b ∧ get data' k = get data k').

Definition sorted_seg (a b : Z) (data : list A) : Prop :=
  ∀ i j, a ≤ i → i < j → j < b → le (get data i) (get data j).

(** Every element of the segment satisfies [P]. *)
Definition all_seg (a b : Z) (data : list A) (P : A → Prop) : Prop :=
  ∀ k, a ≤ k < b → P (get data k).

(** The segment [a, hi) is sorted but for the element at [j], which sorts
    before every element behind it: the state of an insertion under way. *)
Definition sorted_but (a hi j : Z) (data : list A) : Prop :=
  (∀ p q, a ≤ p → p < q → q < hi → p ≠ j → q ≠ j →
     le (get data p) (get data q))
  ∧ (∀ q, j < q < hi → less (get data j) (get data q) = true).

(** The element before the segment, if there is one, bounds the segment from
    below: what [pdqsort_func] relies on when it compares [data[a-1]] with
    the pivot. *)
Definition pinv (a b : Z) (data : list A) : Prop :=
  0 < a → ∀ k, a ≤ k < b → le (get data (a - 1)) (get data k).

Definition is_child (i c : Z) : Prop := c = 2 * i + 1 ∨ c = 2 * i + 2.

(** The node at [first + i] is not below its child at [first + c]. *)
Definition hp (first : Z) (data : list A) (i c : Z) : Prop :=
  le (get data (first + c)) (get data (first + i)).

(** The nodes from [lo] on form a heap of [hi] nodes. *)
Definition heap (first lo hi : Z) (data : list A) : Prop :=
  ∀ i c, lo ≤ i → c < hi → is_child i c → hp first data i c.

(** They do but for the node [root], which may be below its children, none
    of which is above the parent of [root]: a sift-down under way. *)
Definition heap_but (first lo hi root : Z) (data : list A) : Prop :=
  (∀ i c, lo ≤ i → c < hi → is_child i c → i ≠ root → hp first data i c)
  ∧ (∀ p c, lo ≤ p → is_child p root → is_child root c → c < hi →
       hp first data p c).

End Defs.
End Seg.

(* ===================================================================== *)
(** * Package ml: the learning engine (ranking) *)
(* ===================================================================== *)

Record LearningEngine := mkLearningEngine {
  le_config : Config;
  dataCollector : DataCollector
}.

Definition NewLearningEngine (cfg : Config) (w : World)
    : LearningEngine + string :=
  match Initialize (NewDataCollector cfg) w with
  | (_, Some err) => inr err
  | (dc, None) => inl (mkLearningEngine cfg dc)
  end.

(** [AdjustIssueConfidence] updates the finding in place; the result is the
    finding after the call. *)
Definition AdjustIssueConfidence (e : LearningEngine) (issue : Issue) : Issue :=
  if negb (EnableLearning (le_config e)) then issue
  else
    let confidence := GetRuleConfidence (dataCollector e) (Rule issue) in
    if bool_decide (Confidence issue = "high") then
      if bool_decide (confidence = "low") then set_Confidence issue "medium"
      else issue
    else if bool_decide (Confidence issue = "medium") then
      if bool_decide (confidence = "high") then set_Confidence issue "high"
      else if bool_decide (confidence = "low") then set_Confidence issue "low"
      else issue
    else if bool_decide (Confidence issue = "low") then
      if bool_decide (confidence = "high") then set_Confidence issue "medium"
      else issue
    else issue.

(** The loop of [FilterIssues], appending the findings it keeps. *)
Fixpoint filter_loop (e : LearningEngine) (issues filtered : list Issue)
    : list Issue :=
  match issues with
  | [] => filtered
  | issue :: rest =>
      let rate := GetAcceptanceRate (dataCollector e) (Rule issue) in
      if fge rate 0.3%float then filter_loop e rest (filtered ++ [issue])
      else filter_loop e rest filtered
  end.

Definition FilterIssues (e : LearningEngine) (issues : list Issue)
    : list Issue :=
  if negb (EnableLearning (le_config e)) then issues
  else filter_loop e issues [].

Definition getSeverityScore (severity : string) : Z :=
  if bool_decide (severity = "critical") then 4
  else if bool_decide (severity = "high") then 3
  else if bool_decide (severity = "medium") then 2
  else if bool_decide (severity = "low") then 1
  else 0.

(** The combined score the comparison of [SortIssues] computes for a
    finding. *)
Definition score (e : LearningEngine) (issue : Issue) : float :=
  let severity := getSeverityScore (Severity issue) in
  let rate := GetAcceptanceRate (dataCollector e) (Rule issue) in
  (float64 severity * (0.5 + 0.5 * rate))%float.

(** The [less] closure of [SortIssues]: [iScore > jScore]. *)
Definition score_less (e : LearningEngine) (x y : Issue) : bool :=
  fgt (score e x) (score e y).

(** [SortIssues], given the library's [sort.Slice]. *)
Definition SortIssues (sort_Slice : SliceSort) (e : LearningEngine)
    (issues : list Issue) : list Issue :=
  if negb (EnableLearning (le_config e)) || (len issues <=? 1) then issues
  else sort_Slice Issue (score_less e) issues.

Definition SuggestCustomRules (order : list string) (e : LearningEngine)
    : list string :=
  if negb (EnableLearning (le_config e)) then []
  else
    (λ rule, "Consider creating custom rules similar to " +:+ rule)
      <$> GetTopRules order (dataCollector e) 5.

(** [rune(n)] for an [int] [n]: the low 32 bits, as a signed number. *)
Definition rune (n : Z) : Z := (n + 2 ^ 31) mod 2 ^ 32 - 2 ^ 31.

(** [string(r)] for a rune [r]: the UTF-8 encoding of the code point [r], or
    of U+FFFD when [r] is not one. *)
Definition byte_string (n : Z) : string :=
  String (Ascii.ascii_of_N (Z.to_N n)) EmptyString.

Definition rune_string (r : Z) : string :=
  if (r <? 0) || (1114111 <? r) || ((55296 <=? r) && (r <=? 57343)) then
    byte_string 239 +:+ byte_string 191 +:+ byte_string 189
  else if r <? 128 then byte_string r
  else if r <? 2048 then
    byte_string (192 + r / 64) +:+ byte_string (128 + r mod 64)
  else if r <? 65536 then
    byte_string (224 + r / 4096) +:+ byte_string (128 + (r / 64) mod 64)
      +:+ byte_string (128 + r mod 64)
  else
    byte_string (240 + r / 262144) +:+ byte_string (128 + (r / 4096) mod 64)
      +:+ byte_string (128 + (r / 64) mod 64) +:+ byte_string (128 + r mod 64).

(** [ruleCounts[issue.Rule]++] over the findings. *)
Definition count_rules (issues : list Issue) : gmap string Z :=
  foldl (λ ruleCounts issue,
           <[Rule issue := default 0 (ruleCounts !! Rule issue) + 1]> ruleCounts)
        ∅ issues.

(** [order] is the order in which the [range] over [ruleCounts] visits its
    keys. *)
Definition AnalyzeProjectPatterns (order : list string) (e : LearningEngine)
    (repository : string) (issues : list Issue) : list string :=
  if negb (EnableLearning (le_config e)) then []
  else
    let ruleCounts := count_rules issues in
    let count := λ rule, default 0 (ruleCounts !! rule) in
    let frequentRules := filter (λ rule, 3 ≤ count rule) order in
    if 0 <? len frequentRules then
      "Common issues in this project:" ::
      ((λ rule, "- " +:+ rule +:+ ": occurs "
                +:+ rune_string (rune (48 + Z.quot (count rule) 10))
                +:+ rune_string (rune (48 + Z.rem (count rule) 10))
                +:+ " times")
         <$> frequentRules)
    else [].

(* ===================================================================== *)
(** * Package cmd: ApplyLearning *)
(* ===================================================================== *)

(** What a call of [ApplyLearning] leaves: its three results, and the
    findings of the slice it was given, which it adjusts in place. *)
Record Learned := mkLearned {
  learned_issues : list Issue;
  learned_insights : list string;
  learned_err : error;
  issues_after : list Issue
}.

(** [order_counts] and [order_rules] are the orders in which the two [range]
    loops over maps visit their keys. *)
Definition ApplyLearning (sort_Slice : SliceSort)
    (order_counts order_rules : list string) (w : World)
    (issues : list Issue) (repository : string) (cfg : Config) : Learned :=
  if negb (EnableLearning cfg) then mkLearned issues [] None issues
  else
    match NewLearningEngine cfg w with
    | inr err =>
        mkLearned issues []
          (Some ("failed to create learning engine: " +:+ err)) issues
    | inl engine =>
        let issues := AdjustIssueConfidence engine <$> issues in
        let filteredIssues := FilterIssues engine issues in
        let sortedIssues := SortIssues sort_Slice engine filteredIssues in
        let insights :=
          AnalyzeProjectPatterns order_counts engine repository issues in
        let customRules := SuggestCustomRules order_rules engine in
        let insights :=
          if 0 <? len customRules
          then (insights ++ ["Suggested custom rules:"]) ++ customRules
          else insights in
        mkLearned sortedIssues insights None issues
    end.

(* ===================================================================== *)
(** * Package analyzer *)
(* ===================================================================== *)

(** A detector: [func(fset *token.FileSet, node ast.Node) *models.Issue]. *)
Definition Detector (Node : Type) : Type := Node → option Issue.

(** What the analyzer calls outside the repository: [ioutil.ReadFile],
    [parser.ParseFile], [ast.Inspect] (the nodes of a file in the order the
    traversal hands them to its callback, the closing [nil]s left out) and
    the gosec scanner's [Scan].  Each fallible one yields its value or the
    text of its error. *)
Record Externals (Node AstFile : Type) := mkExternals {
  ReadFile : string → string + string;
  ParseFile : string → string → AstFile + string;
  Inspect : AstFile → list Node;
  Scan : string → list Issue + string
}.
Arguments ReadFile {Node AstFile}.
Arguments ParseFile {Node AstFile}.
Arguments Inspect {Node AstFile}.
Arguments Scan {Node AstFile}.

(** [analyzer.Analyzer]: the configuration and the four rule families, each
    as the list of its detectors. *)
Record Analyzer (Node : Type) := mkAnalyzer {
  config : Config;
  patterns : list (Detector Node);
  antiPatterns : list (Detector Node);
  bestPractices : list (Detector Node);
  securityRules : list (Detector Node)
}.
Arguments config {Node}.
Arguments patterns {Node}.
Arguments antiPatterns {Node}.
Arguments bestPractices {Node}.
Arguments securityRules {Node}.

(** [analyzer.Results]. *)
Record Results := mkResults {
  Issues : list Issue;
  TotalIssues : Z;
  CriticalIssues : Z;
  HighIssues : Z;
  MediumIssues : Z;
  LowIssues : Z
}.

Section Analyze.
Context {Node AstFile : Type}.
Context (ext : Externals Node AstFile) (a : Analyzer Node).

(** One [for] loop over a rule family at one node. *)
Definition apply_family (family : list (Detector Node)) (relPath : string)
    (node : Node) : list Issue :=
  omap (λ detector, (λ issue, set_File issue relPath) <$> detector node)
       family.

(** The callback of [ast.Inspect] at a node. *)
Definition visit (relPath : string) (node : Node) : list Issue :=
  apply_family (patterns a) relPath node
    ++ apply_family (antiPatterns a) relPath node
    ++ apply_family (bestPractices a) relPath node
    ++ apply_family (securityRules a) relPath node.

Definition analyzeFile (file : SourceFile) : list Issue + string :=
  match ReadFile ext (Path file) with
  | inr err => inr err
  | inl content =>
      match ParseFile ext (Path file) content with
      | inr err => inr err
      | inl astFile =>
          inl (foldl (λ issues node, issues ++ visit (RelPath file) node)
                     [] (Inspect ext astFile))
      end
  end.

(** The state the units of work share: the findings gathered so far,
    and the lines printed to standard error. *)
Definition Shared : Type := list Issue * list string.

(** The body of one goroutine. *)
Definition unit_of_work (f : SourceFile) (st : Shared) : Shared :=
  match analyzeFile f with
  | inr err =>
      if Verbose (config a)
      then (st.1, st.2 ++ ["Error analyzing file " +:+ Path f +:+ " : " +:+ err])
      else st
  | inl issues => (st.1 ++ issues, st.2)
  end.

(** The units of work take effect one at a time, in an order the scheduler
    chooses: [sched] lists the indices of the files in that order. *)
Definition run_units (files : list SourceFile) (sched : list nat)
    (st : Shared) : Shared :=
  foldl (λ st i, match files !! i with
                 | Some f => unit_of_work f st
                 | None => st
                 end) st sched.

Definition schedule (files : list SourceFile) (sched : list nat) : Prop :=
  sched ≡ₚ seq 0 (length files).

(** The loop that recovers the repository path from the first file: the
    prefix of [path] before the first proper suffix equal to [rel]. *)
Fixpoint repo_path (path rel : string) : string :=
  match path with
  | EmptyString => EmptyString
  | String c rest =>
      if bool_decide (path = rel) then EmptyString
      else String c (repo_path rest rel)
  end.

Definition security_scan (files : list SourceFile) (st : Shared) : Shared :=
  match files with
  | [] => st
  | first :: _ =>
      match Scan ext (repo_path (Path first) (RelPath first)) with
      | inr err =>
          if Verbose (config a)
          then (st.1, st.2 ++ ["Error running security scanner: " +:+ err])
          else st
      | inl securityIssues => (st.1 ++ securityIssues, st.2)
      end
  end.

(** One round of the counting loop. *)
Definition count_issue (results : Results) (issue : Issue) : Results :=
  let total := TotalIssues results + 1 in
  if bool_decide (Severity issue = "critical") then
    mkResults (Issues results) total (CriticalIssues results + 1)
              (HighIssues results) (MediumIssues results) (LowIssues results)
  else if bool_decide (Severity issue = "high") then
    mkResults (Issues results) total (CriticalIssues results)
              (HighIssues results + 1) (MediumIssues results) (LowIssues results)
  else if bool_decide (Severity issue = "medium") then
    mkResults (Issues results) total (CriticalIssues results)
              (HighIssues results) (MediumIssues results + 1) (LowIssues results)
  else if bool_decide (Severity issue = "low") then
    mkResults (Issues results) total (CriticalIssues results)
              (HighIssues results) (MediumIssues results) (LowIssues results + 1)
  else
    mkResults (Issues results) total (CriticalIssues results)
              (HighIssues results) (MediumIssues results) (LowIssues results).

(** [Analyze]: its two results, and what the run printed to standard
    error. *)
Definition Analyze (files : list SourceFile) (sched : list nat)
    : Results * error * list string :=
  let st := run_units files sched ([], []) in
  let st := security_scan files st in
  let results := mkResults st.1 0 0 0 0 0 in
  (foldl count_issue results (Issues results), None, st.2).
End Analyze.

(* ===================================================================== *)
(** * Definitions used by the statements *)
(* ===================================================================== *)

(** The number of findings of [l] of severity [s]. *)
Definition count_severity (s : string) (l : list Issue) : Z :=
  len (filter (λ issue, Severity issue = s) l).

(** The place of a confidence label on the scale low < medium < high. *)
Definition level (c : string) : option nat :=
  if bool_decide (c = "low") then Some 0%nat
  else if bool_decide (c = "medium") then Some 1%nat
  else if bool_decide (c = "high") then Some 2%nat
  else None.

(** [c'] is [c] or a neighbour of [c] on the scale. *)
Definition one_step (c c' : string) : Prop :=
  c' = c ∨ ∃ n n', level c = Some n ∧ level c' = Some n'
                   ∧ (n' = S n ∨ n = S n').

(** Every history of the store has a length that is a Go [int]. *)
Definition int_lengths (c : DataCollector) : Prop :=
  ∀ ruleID issues, issueData c !! ruleID = Some issues → len issues < 2 ^ 63.

(** The record [RecordIssue] appends. *)
Definition new_record (issue : Issue) (repository : string) (now : Z)
    : LearningData :=
  mkLearningData issue false repository now.

(** The records stored under a rule, none when the rule is not a key. *)
Definition history (c : DataCollector) (ruleID : string) : list LearningData :=
  default [] (issueData c !! ruleID).

(** [d] is a record of the store filed under [ruleID] at index [i]. *)
Definition record_at (c : DataCollector) (ruleID : string) (i : nat)
    (d : LearningData) : Prop :=
  history c ruleID !! i = Some d.

(** The record at index [i] of rule [ruleID] is the first one with
    identifier [issueID] that the scan in order [order] comes to. *)
Definition first_match (c : DataCollector) (order : list string)
    (issueID : string) (ruleID : string) (i : nat) : Prop :=
  ∃ before after d,
    order = before ++ ruleID :: after
    ∧ (∀ r j d', r ∈ before → record_at c r j d' →
         issue_id (LD_Issue d') ≠ issueID)
    ∧ record_at c ruleID i d
    ∧ issue_id (LD_Issue d) = issueID
    ∧ (∀ j d', (j < i)%nat → record_at c ruleID j d' →
         issue_id (LD_Issue d') ≠ issueID).

(** A configuration with learning on, an empty store in a writable
    directory, and a finding, for the examples. *)
Definition ex_cfg : Config := mkConfig false true "".
Definition ex_collector : DataCollector := NewDataCollector ex_cfg.
Definition ex_world : World := mkWorld true true NoFile.
Definition ex_issue : Issue :=
  mkIssue "a.go" 3 1 "unchecked error" "security" "high" "medium" "" "" "R1".

(** The store after [ex_issue] has been recorded once. *)
Definition ex_stored : DataCollector :=
  (RecordIssue ex_collector ex_world ex_issue "repo" 1).1.1.

(** The findings a file contributes to a run, and the line its failure
    prints when the run is verbose. *)
Definition file_findings {Node AstFile} (ext : Externals Node AstFile)
    (a : Analyzer Node) (f : SourceFile) : list Issue :=
  match analyzeFile ext a f with inl issues => issues | inr _ => [] end.

Definition file_errors {Node AstFile} (ext : Externals Node AstFile)
    (a : Analyzer Node) (f : SourceFile) : list string :=
  match analyzeFile ext a f with
  | inl _ => []
  | inr err => ["Error analyzing file " +:+ Path f +:+ " : " +:+ err]
  end.

(** The findings of the security scan of a run, and the line its failure
    prints when the run is verbose. *)
Definition scan_findings {Node AstFile} (ext : Externals Node AstFile)
    (files : list SourceFile) : list Issue :=
  match files with
  | [] => []
  | first :: _ =>
      match Scan ext (repo_path (Path first) (RelPath first)) with
      | inl issues => issues
      | inr _ => []
      end
  end.

Definition scan_errors {Node AstFile} (ext : Externals Node AstFile)
    (files : list SourceFile) : list string :=
  match files with
  | [] => []
  | first :: _ =>
      match Scan ext (repo_path (Path first) (RelPath first)) with
      | inl _ => []
      | inr err => ["Error running security scanner: " +:+ err]
      end
  end.

(** The files in the order their units of work take effect. *)
Definition in_order (files : list SourceFile) (sched : list nat)
    : list SourceFile :=
  omap (λ i, files !! i) sched.

(** The failure of [f] is recorded by a run with outcome [out]: the run
    returned an error, or printed the line that reports the failure. *)
Definition error_recorded (out : Results * error * list string)
    (f : SourceFile) : Prop :=
  out.1.2 ≠ None
  ∨ ∃ err, "Error analyzing file " +:+ Path f +:+ " : " +:+ err ∈ out.2.

(** A repository of two files, the second of which does not parse; a node is
    rendered by its kind, and the one registered detector reports every
    declaration. *)
Definition cx_ext : Externals string (list string) :=
  mkExternals string (list string)
    (λ path, if bool_decide (path = "/repo/good.go")
             then inl "package main; func f() {}; func g() {}"
             else if bool_decide (path = "/repo/bad.go") then inl "packag main"
             else inr "no such file")
    (λ path content,
       if bool_decide (content = "package main; func f() {}; func g() {}")
       then inl ["File"; "FuncDecl"; "FuncDecl"]
       else inr "expected 'package'")
    (λ astFile, astFile)
    (λ repoPath, inl []).

Definition cx_finding : Issue :=
  mkIssue "" 1 1 "exported function lacks a comment" "best-practice" "medium"
          "high" "" "" "missing-doc".

Definition cx_analyzer : Analyzer string :=
  mkAnalyzer string (mkConfig false true "") []  []
    [λ node, if bool_decide (node = "FuncDecl") then Some cx_finding else None]
    [].

Definition cx_good : SourceFile := mkSourceFile "/repo/good.go" "good.go".
Definition cx_bad : SourceFile := mkSourceFile "/repo/bad.go" "bad.go".

(** The store after that record has been accepted, and engines over the
    empty store and over this one. *)
Definition ex_accepted : DataCollector :=
  (RecordFeedback ["R1"] ex_stored ex_world "a.go:3:unchecked error" true).1.1.

Definition ex_engine0 : LearningEngine := mkLearningEngine ex_cfg ex_collector.
Definition ex_engine : LearningEngine := mkLearningEngine ex_cfg ex_accepted.

(** A store in which rule "R2" has ten records, two of them accepted. *)
Definition ex_r2_record (accepted : bool) : LearningData :=
  mkLearningData
    (mkIssue "b.go" 7 1 "magic number" "code-smell" "low" "medium" "" "" "R2")
    accepted "repo" 0.

Definition ex_r2_collector : DataCollector :=
  mkDataCollector ex_cfg "data"
    {["R2" := replicate 2 (ex_r2_record true) ++ replicate 8 (ex_r2_record false)]}.

Definition ex_r2_engine : LearningEngine := mkLearningEngine ex_cfg ex_r2_collector.

(* ===================================================================== *)
(** * float64: order and magnitude *)
(* ===================================================================== *)

(** A float64 that is not a NaN has a key; the order of the keys, sign first,
    then exponent, then mantissa, is the order of the floats. *)
Definition Key : Type := Z * Z * Z.

Definition SFkey (x : spec_float) : option Key :=
  match x with
  | S754_nan => None
  | S754_infinity true => Some (-2, 0, 0)
  | S754_infinity false => Some (2, 0, 0)
  | S754_zero _ => Some (0, 0, 0)
  | S754_finite true m e => Some (-1, - e, Z.neg m)
  | S754_finite false m e => Some (1, e, Z.pos m)
  end.

Definition key_lt (a b : Key) : Prop :=
  a.1.1 < b.1.1
  ∨ (a.1.1 = b.1.1 ∧ (a.1.2 < b.1.2 ∨ (a.1.2 = b.1.2 ∧ a.2 < b.2))).

Definition key_cmp (a b : Key) : comparison :=
  match a.1.1 ?= b.1.1 with
  | Eq => match a.1.2 ?= b.1.2 with Eq => a.2 ?= b.2 | c => c end
  | c => c
  end.

Definition fkey (x : float) : option Key := SFkey (Prim2SF x).

(** A float, as the specification of IEEE 754 arithmetic holds it, is zero or
    finite and below [2^E]; is finite and at least [2^(L-1)]. *)
Definition SFbounded (E : Z) (x : spec_float) : Prop :=
  match x with
  | S754_zero _ => True
  | S754_finite _ m e => Z.pos (digits2_pos m) + e ≤ E
  | _ => False
  end.

Definition SFlarge (L : Z) (x : spec_float) : Prop :=
  match x with
  | S754_finite _ m e => L ≤ Z.pos (digits2_pos m) + e
  | _ => False
  end.

Definition fbounded (E : Z) (x : float) : Prop := SFbounded E (Prim2SF x).


(** Findings of equal score come out in the order they came in. *)
Definition ties_keep_order (e : LearningEngine) (issues sorted : list Issue)
    : Prop :=
  ∀ (i j : nat) x y, (i < j)%nat → issues !! i = Some x → issues !! j = Some y →
    PrimFloat.eqb (score e x) (score e y) = true →
    ∃ i' j' : nat, (i' < j')%nat ∧ sorted !! i' = Some x ∧ sorted !! j' = Some y.

(** Twelve findings of low severity, told apart by their lines, followed by
    one of high severity. *)
Definition cx_low (line : Z) : Issue :=
  mkIssue "a.go" line 1 "unused variable" "code-smell" "low" "high" "" ""
          "unused-variable".

Definition cx_high : Issue :=
  mkIssue "a.go" 12 1 "unchecked error" "security" "high" "high" "" ""
          "unchecked-error".

Definition cx_issues : list Issue :=
  (cx_low <$> [0; 1; 2; 3; 4; 5; 6; 7; 8; 9; 10; 11]) ++ [cx_high].

(* ===================================================================== *)
(** * The feedback store *)
(* ===================================================================== *)

Lemma count_accepted_from (issues : list LearningData) (n : Z) :
  foldl (λ accepted data, if Accepted data then accepted + 1 else accepted)
        n issues
  = n + len (filter (λ d, Accepted d = true) issues).
Proof.
  revert n. induction issues as [|d issues IH]; intros n; simpl.
  - unfold len. simpl. lia.
  - rewrite IH. rewrite filter_cons. unfold len.
    destruct (Accepted d); case_decide; try done; simpl; lia.
Qed.

Lemma count_accepted_filter (issues : list LearningData) :
  count_accepted issues = len (filter (λ d, Accepted d = true) issues).
Proof. unfold count_accepted. rewrite count_accepted_from. lia. Qed.

Lemma GetAcceptanceRate_no_history (c : DataCollector) (ruleID : string) :
  history c ruleID = [] → GetAcceptanceRate c ruleID = 0.5%float.
Proof.
  unfold GetAcceptanceRate, history.
  destruct (issueData c !! ruleID) as [issues|]; simpl; [|done].
  by intros ->.
Qed.

(** C4. The acceptance rate of a rule is the float64 quotient of the number
    of its accepted records by the number of its records, and is exactly 0.5
    when no record is stored under the rule (the rule is not a key of the
    store, or its history is empty). *)
Theorem GetAcceptanceRate_spec (c : DataCollector) (ruleID : string) :
  GetAcceptanceRate c ruleID =
    match history c ruleID with
    | [] => 0.5%float
    | issues =>
        (float64 (len (filter (λ d, Accepted d = true) issues))
         / float64 (len issues))%float
    end.
Proof.
  unfold GetAcceptanceRate, history.
  destruct (issueData c !! ruleID) as [issues|] eqn:Hl; simpl; [|done].
  destruct issues as [|d issues]; [done|].
  replace (len (d :: issues) =? 0) with false
    by (symmetry; apply Z.eqb_neq; unfold len; simpl; lia).
  by rewrite count_accepted_filter.
Qed.

Lemma saveData_spec (c : DataCollector) (w : World) :
  saveData c w =
    if write_ok w
    then (mkWorld (mkdir_ok w) true (Stored (issueData c)), None)
    else (w, Some "failed to write learning data").
Proof. unfold saveData. by destruct (write_ok w) eqn:E. Qed.

Lemma RecordIssue_enabled (c : DataCollector) (w : World) (issue : Issue)
    (repository : string) (now : Z) :
  EnableLearning (dc_config c) = true →
  let c' := set_issueData c
              (<[Rule issue := history c (Rule issue)
                                 ++ [new_record issue repository now]]>
                 (issueData c)) in
  RecordIssue c w issue repository now = (c', (saveData c' w).1, (saveData c' w).2).
Proof.
  intros He. unfold RecordIssue. rewrite He. simpl.
  by destruct (saveData _ w).
Qed.

Lemma RecordIssue_history (c : DataCollector) (w : World) (issue : Issue)
    (repository : string) (now : Z) :
  EnableLearning (dc_config c) = true →
  history (RecordIssue c w issue repository now).1.1 (Rule issue)
  = history c (Rule issue) ++ [new_record issue repository now].
Proof.
  intros He. rewrite (RecordIssue_enabled c w issue repository now He).
  cbv zeta. unfold history at 1. simpl. by rewrite lookup_insert_eq.
Qed.

Lemma RecordIssue_config (c : DataCollector) (w : World) (issue : Issue)
    (repository : string) (now : Z) :
  dc_config (RecordIssue c w issue repository now).1.1 = dc_config c.
Proof.
  unfold RecordIssue. destruct (EnableLearning (dc_config c)); simpl; [|done].
  by destruct (saveData _ w).
Qed.

(** C7. With learning enabled, [RecordIssue] appends exactly one record, with
    [Accepted = false], to the history of the finding's rule and leaves every
    other history as it was; before it returns it hands the whole store to
    [saveData], which replaces the data file with it when the file can be
    written.  A second call for the same finding appends a second record. *)
Theorem RecordIssue_appends (c : DataCollector) (w : World) (issue : Issue)
    (repository : string) (now now' : Z) :
  EnableLearning (dc_config c) = true →
  let r1 := RecordIssue c w issue repository now in
  let r2 := RecordIssue r1.1.1 r1.1.2 issue repository now' in
  history r1.1.1 (Rule issue)
    = history c (Rule issue) ++ [new_record issue repository now]
  ∧ Accepted (new_record issue repository now) = false
  ∧ (∀ r, r ≠ Rule issue → issueData r1.1.1 !! r = issueData c !! r)
  ∧ (r1.1.2, r1.2) = saveData r1.1.1 w
  ∧ (write_ok w = true →
       data_file r1.1.2 = Stored (issueData r1.1.1) ∧ r1.2 = None)
  ∧ history r2.1.1 (Rule issue)
    = history c (Rule issue) ++ [new_record issue repository now;
                                  new_record issue repository now']
  ∧ length (history r2.1.1 (Rule issue))
    = S (S (length (history c (Rule issue)))).
Proof.
  intros He r1 r2.
  assert (H1 : history r1.1.1 (Rule issue)
               = history c (Rule issue) ++ [new_record issue repository now])
    by (by apply RecordIssue_history).
  assert (He1 : EnableLearning (dc_config r1.1.1) = true)
    by (subst r1; by rewrite RecordIssue_config).
  assert (H2 : history r2.1.1 (Rule issue)
               = history c (Rule issue)
                   ++ [new_record issue repository now;
                       new_record issue repository now']).
  { subst r2. rewrite RecordIssue_history by done.
    rewrite H1. by rewrite <- app_assoc. }
  split; [exact H1|]. split; [done|].
  assert (Hr1 := RecordIssue_enabled c w issue repository now He).
  cbv zeta in Hr1. fold r1 in Hr1.
  split. { intros r Hr. rewrite Hr1. simpl. by rewrite lookup_insert_ne. }
  split. { rewrite Hr1. simpl. by destruct (saveData _ w). }
  split. { intros Hw. rewrite Hr1. simpl. rewrite saveData_spec, Hw. done. }
  split; [exact H2|].
  rewrite H2. rewrite length_app. simpl. lia.
Qed.

Lemma RecordIssue_appends_witness :
  history (RecordIssue ex_collector ex_world ex_issue "repo" 1).1.1 "R1"
  = history ex_collector "R1" ++ [new_record ex_issue "repo" 1].
Proof.
  exact (proj1 (RecordIssue_appends ex_collector ex_world ex_issue "repo" 1 2
                  eq_refl)).
Defined.

Lemma find_record_None (issueID : string) (issues : list LearningData) :
  find_record issueID issues = None ↔
  ∀ j d, issues !! j = Some d → issue_id (LD_Issue d) ≠ issueID.
Proof.
  induction issues as [|d issues IH]; simpl.
  - split; [intros _ j d; by rewrite lookup_nil | done].
  - case_bool_decide as Hd.
    + split; [done|]. intros H. by destruct (H 0%nat d).
    + rewrite fmap_None, IH. split.
      * intros H [|j] d'; simpl; [intros [= <-]; done | apply H].
      * intros H j d' Hj. by apply (H (S j)).
Qed.

Lemma find_record_Some (issueID : string) (issues : list LearningData)
    (i : nat) :
  find_record issueID issues = Some i ↔
  ∃ d, issues !! i = Some d ∧ issue_id (LD_Issue d) = issueID
       ∧ ∀ j d', (j < i)%nat → issues !! j = Some d' →
           issue_id (LD_Issue d') ≠ issueID.
Proof.
  revert i. induction issues as [|d issues IH]; intros i; simpl.
  - split; [done|]. intros (d & Hd & _). by rewrite lookup_nil in Hd.
  - case_bool_decide as Hd.
    + split.
      * intros [= <-]. exists d. repeat split; [done|]. intros j d' Hj. lia.
      * intros (d' & Hi & Hid & Hfirst). destruct i as [|i]; [done|].
        destruct (Hfirst 0%nat d); [lia|done|done].
    + rewrite fmap_Some. split.
      * intros (i' & Hi' & ->). apply IH in Hi' as (d' & Hl & Hid & Hfirst).
        exists d'. repeat split; [done..|].
        intros [|j] d''; simpl; [intros _ [= <-]; done|].
        intros Hj. apply Hfirst. lia.
      * intros (d' & Hi & Hid & Hfirst). destruct i as [|i]; simpl in Hi.
        { injection Hi as <-. done. }
        exists i. split; [|done]. apply IH. exists d'. repeat split; [done..|].
        intros j d'' Hj Hl. apply (Hfirst (S j) d''); [lia|done].
Qed.

Lemma find_rule_None (issueID : string) (m : gmap string (list LearningData))
    (order : list string) :
  find_rule issueID m order = None ↔
  ∀ r, r ∈ order → find_record issueID (default [] (m !! r)) = None.
Proof.
  induction order as [|r order IH]; simpl.
  - split; [intros _ r Hr; by apply elem_of_nil in Hr | done].
  - destruct (find_record issueID (default [] (m !! r))) as [i|] eqn:Hr.
    + split; [done|]. intros H.
      assert (Hin : r ∈ r :: order) by (by left).
      specialize (H r Hin). by rewrite Hr in H.
    + rewrite IH. split.
      * intros H r' Hr'. apply elem_of_cons in Hr' as [->|Hr']; [done|by apply H].
      * intros H r' Hr'. apply H. by right.
Qed.

Lemma find_rule_Some (issueID : string) (m : gmap string (list LearningData))
    (order : list string) (ruleID : string) (i : nat) :
  find_rule issueID m order = Some (ruleID, i) →
  ∃ before after,
    order = before ++ ruleID :: after
    ∧ (∀ r, r ∈ before → find_record issueID (default [] (m !! r)) = None)
    ∧ find_record issueID (default [] (m !! ruleID)) = Some i.
Proof.
  induction order as [|r order IH]; simpl; [done|].
  destruct (find_record issueID (default [] (m !! r))) as [i'|] eqn:Hr.
  - intros [= -> ->]. exists [], order. repeat split; [|done].
    intros r' Hr'. by apply elem_of_nil in Hr'.
  - intros H. apply IH in H as (before & after & -> & Hb & Hi).
    exists (r :: before), after. repeat split; [|done].
    intros r' Hr'. apply elem_of_cons in Hr' as [->|Hr']; [done|by apply Hb].
Qed.

Lemma list_alter_insert {A} (f : A → A) (l : list A) (i : nat) (x : A) :
  l !! i = Some x → alter f i l = <[i := f x]> l.
Proof.
  revert i. induction l as [|y l IH]; intros [|i]; simpl; try done.
  - by intros [= ->].
  - intros H. f_equal. by apply IH.
Qed.

Lemma record_at_key (c : DataCollector) (ruleID : string) (i : nat)
    (d : LearningData) :
  record_at c ruleID i d → issueData c !! ruleID = Some (history c ruleID).
Proof.
  unfold record_at, history.
  destruct (issueData c !! ruleID); simpl; [done|]. by rewrite lookup_nil.
Qed.

(** C6. With learning enabled, [RecordFeedback] scans the histories of the
    rules, in the order the map hands them out, for the first record whose
    identifier [File:Line:Message] is the one given.  If some record of the
    store has that identifier, the first one found gets the given [Accepted]
    flag, nothing else in the store changes, and the store is handed to
    [saveData], which replaces the data file with it when the file can be
    written.  If no record has it, the call returns the error
    "issue not found" and leaves the store and the data file as they were. *)
Theorem RecordFeedback_spec (order : list string) (c : DataCollector)
    (w : World) (issueID : string) (accepted : bool) :
  EnableLearning (dc_config c) = true →
  range_order (issueData c) order →
  let r := RecordFeedback order c w issueID accepted in
  ((∃ ruleID i d, record_at c ruleID i d ∧ issue_id (LD_Issue d) = issueID) →
   ∃ ruleID i d,
     first_match c order issueID ruleID i
     ∧ record_at c ruleID i d
     ∧ r.1.1 = set_issueData c
                 (<[ruleID := <[i := set_Accepted d accepted]> (history c ruleID)]>
                    (issueData c))
     ∧ (r.1.2, r.2) = saveData r.1.1 w
     ∧ (write_ok w = true →
          data_file r.1.2 = Stored (issueData r.1.1) ∧ r.2 = None))
  ∧ ((∀ ruleID i d, record_at c ruleID i d →
        issue_id (LD_Issue d) ≠ issueID) →
     r = (c, w, Some ("issue not found: " +:+ issueID))).
Proof.
  intros He [_ Hkeys] r. subst r. unfold RecordFeedback. rewrite He. simpl.
  destruct (find_rule issueID (issueData c) order) as [[ruleID i]|] eqn:Hf.
  - split.
    + intros _. apply find_rule_Some in Hf as (before & after & -> & Hb & Hi).
      apply find_record_Some in Hi as (d & Hd & Hid & Hfirst).
      exists ruleID, i, d.
      assert (Hat : record_at c ruleID i d) by done.
      split.
      { exists before, after, d. repeat split; [|done..].
        intros r' j d' Hr' Hj. specialize (Hb r' Hr').
        rewrite find_record_None in Hb. by apply (Hb j). }
      split; [done|].
      assert (Hc : set_issueData c
                (alter (alter (λ d0, set_Accepted d0 accepted) i) ruleID
                       (issueData c))
              = set_issueData c
                  (<[ruleID := <[i := set_Accepted d accepted]> (history c ruleID)]>
                     (issueData c))).
      { rewrite (alter_alt_Some _ _ _ _ (record_at_key _ _ _ _ Hat)).
        by rewrite (list_alter_insert _ _ _ _ Hat). }
      rewrite Hc. destruct (saveData _ w) as [w' err] eqn:Hs. simpl.
      split; [done|]. split; [done|].
      intros Hw. rewrite saveData_spec, Hw in Hs. by injection Hs as <- <-.
    + intros Hno. exfalso.
      apply find_rule_Some in Hf as (before & after & -> & Hb & Hi).
      apply find_record_Some in Hi as (d & Hd & Hid & _).
      by apply (Hno ruleID i d).
  - split; [|done].
    intros (ruleID & i & d & Hat & Hid). exfalso.
    rewrite find_rule_None in Hf.
    assert (Hin : ruleID ∈ order).
    { apply Hkeys. rewrite (record_at_key _ _ _ _ Hat). eauto. }
    specialize (Hf ruleID Hin). rewrite find_record_None in Hf.
    by apply (Hf i d).
Qed.

Lemma ex_stored_order : range_order (issueData ex_stored) ["R1"].
Proof.
  split; [apply NoDup_singleton|]. intros k.
  unfold ex_stored, ex_collector, NewDataCollector. simpl.
  rewrite list_elem_of_singleton. split.
  - intros ->. rewrite lookup_insert_eq. eauto.
  - intros [x Hx]. destruct (decide (k = "R1")) as [->|Hk]; [done|].
    rewrite lookup_insert_ne, lookup_empty in Hx; done.
Defined.

Lemma RecordFeedback_spec_witness :
  let r := RecordFeedback ["R1"] ex_stored ex_world
                          "a.go:3:unchecked error" true in
  ∃ ruleID i d,
    first_match ex_stored ["R1"] "a.go:3:unchecked error" ruleID i
    ∧ record_at ex_stored ruleID i d
    ∧ r.1.1 = set_issueData ex_stored
                (<[ruleID := <[i := set_Accepted d true]> (history ex_stored ruleID)]>
                   (issueData ex_stored))
    ∧ (r.1.2, r.2) = saveData r.1.1 ex_world
    ∧ (write_ok ex_world = true →
         data_file r.1.2 = Stored (issueData r.1.1) ∧ r.2 = None).
Proof.
  refine (proj1 (RecordFeedback_spec ["R1"] ex_stored ex_world
                   "a.go:3:unchecked error" true eq_refl ex_stored_order) _).
  exists "R1", 0%nat, (new_record ex_issue "repo" 1). split; reflexivity.
Defined.

(* ===================================================================== *)
(** * The ranking engine: pass-through and filtering *)
(* ===================================================================== *)

(** C5. With learning disabled, [ApplyLearning] returns the slice it was
    given, no insights and no error, and leaves the findings as they were;
    applying it any number of times to its own result gives the same slice. *)
Theorem ApplyLearning_disabled (sort_Slice : SliceSort)
    (order_counts order_rules : list string) (w : World)
    (issues : list Issue) (repository : string) (cfg : Config) :
  EnableLearning cfg = false →
  ApplyLearning sort_Slice order_counts order_rules w issues repository cfg
    = mkLearned issues [] None issues
  ∧ ∀ n : nat,
      Nat.iter n (λ l, learned_issues
                         (ApplyLearning sort_Slice order_counts order_rules
                                        w l repository cfg)) issues
      = issues.
Proof.
  intros Hoff.
  assert (H : ∀ l, ApplyLearning sort_Slice order_counts order_rules w l
                     repository cfg = mkLearned l [] None l).
  { intros l. unfold ApplyLearning. by rewrite Hoff. }
  split; [apply H|].
  induction n as [|n IH]; simpl; [done|]. by rewrite IH, H.
Qed.

Lemma ApplyLearning_disabled_witness :
  ApplyLearning go_sort_Slice [] [] ex_world [ex_issue; cx_finding] "repo"
                (mkConfig false false "")
  = mkLearned [ex_issue; cx_finding] [] None [ex_issue; cx_finding].
Proof.
  exact (proj1 (ApplyLearning_disabled go_sort_Slice [] [] ex_world
                  [ex_issue; cx_finding] "repo" (mkConfig false false "")
                  eq_refl)).
Defined.

Lemma filter_loop_filter (e : LearningEngine) (issues filtered : list Issue) :
  filter_loop e issues filtered
  = filtered
    ++ filter (λ issue,
                 fge (GetAcceptanceRate (dataCollector e) (Rule issue)) 0.3
                 = true) issues.
Proof.
  revert filtered. induction issues as [|issue issues IH]; intros filtered.
  - simpl. by rewrite app_nil_r.
  - simpl. rewrite filter_cons.
    destruct (fge _ _) eqn:Hk; rewrite IH.
    + rewrite decide_True by done. by rewrite <- app_assoc.
    + rewrite decide_False by done. done.
Qed.

(** C10. The slice [FilterIssues] returns is a subsequence of the one it is
    given: it keeps findings of the input in their input order, and neither
    repeats nor invents one.  With learning disabled it is the input. *)
Theorem FilterIssues_sublist (e : LearningEngine) (issues : list Issue) :
  FilterIssues e issues `sublist_of` issues
  ∧ (EnableLearning (le_config e) = false → FilterIssues e issues = issues).
Proof.
  unfold FilterIssues. destruct (EnableLearning (le_config e)); simpl.
  - split; [|done]. rewrite filter_loop_filter. simpl. apply sublist_filter.
  - done.
Qed.

(* ===================================================================== *)
(** * The analyzer: aggregation *)
(* ===================================================================== *)

Section AnalyzeFacts.
Context {Node AstFile : Type}.
Context (ext : Externals Node AstFile) (a : Analyzer Node).

Lemma unit_of_work_spec (f : SourceFile) (st : Shared) :
  unit_of_work ext a f st
  = (st.1 ++ file_findings ext a f,
     st.2 ++ if Verbose (config a) then file_errors ext a f else []).
Proof.
  unfold unit_of_work, file_findings, file_errors. destruct st as [found log].
  destruct (analyzeFile ext a f); destruct (Verbose (config a)); simpl;
    by rewrite ?app_nil_r.
Qed.

Lemma run_units_spec (files : list SourceFile) (sched : list nat)
    (st : Shared) :
  run_units ext a files sched st
  = (st.1 ++ concat (file_findings ext a <$> in_order files sched),
     st.2 ++ if Verbose (config a)
             then concat (file_errors ext a <$> in_order files sched)
             else []).
Proof.
  unfold run_units, in_order. revert st.
  induction sched as [|i sched IH]; intros st; simpl.
  - destruct st. destruct (Verbose (config a)); simpl; by rewrite ?app_nil_r.
  - destruct (files !! i) as [f|]; simpl; [|apply IH].
    rewrite IH, unit_of_work_spec. simpl.
    destruct (Verbose (config a)); simpl; by rewrite <- ?app_assoc, ?app_nil_r.
Qed.

Lemma security_scan_spec (files : list SourceFile) (st : Shared) :
  security_scan ext a files st
  = (st.1 ++ scan_findings ext files,
     st.2 ++ if Verbose (config a) then scan_errors ext files else []).
Proof.
  unfold security_scan, scan_findings, scan_errors. destruct st as [found log].
  destruct files as [|first files]; simpl.
  - destruct (Verbose (config a)); by rewrite !app_nil_r.
  - destruct (Scan ext _); destruct (Verbose (config a)); simpl;
      by rewrite ?app_nil_r.
Qed.

Lemma in_order_seq (files : list SourceFile) (n : nat) :
  omap (λ i, files !! i) (seq n (length files - n)) = drop n files.
Proof.
  remember (length files - n)%nat as k eqn:Hk. revert n Hk.
  induction k as [|k IH]; intros n Hk; simpl.
  - symmetry. apply drop_ge. lia.
  - destruct (files !! n) as [f|] eqn:Hf.
    + rewrite (drop_S _ _ _ Hf). f_equal. apply IH. lia.
    + apply lookup_ge_None in Hf. lia.
Qed.

Lemma in_order_schedule (files : list SourceFile) (sched : list nat) :
  schedule files sched → in_order files sched ≡ₚ files.
Proof.
  unfold schedule, in_order. intros ->.
  pose proof (in_order_seq files 0) as H. rewrite Nat.sub_0_r in H.
  by rewrite H.
Qed.

Lemma count_loop_spec (issues : list Issue) (results : Results) :
  let r := foldl count_issue results issues in
  Issues r = Issues results
  ∧ TotalIssues r = TotalIssues results + len issues
  ∧ CriticalIssues r = CriticalIssues results + count_severity "critical" issues
  ∧ HighIssues r = HighIssues results + count_severity "high" issues
  ∧ MediumIssues r = MediumIssues results + count_severity "medium" issues
  ∧ LowIssues r = LowIssues results + count_severity "low" issues.
Proof.
  revert results. unfold count_severity, len.
  induction issues as [|issue issues IH]; intros results; simpl.
  - repeat split; lia.
  - specialize (IH (count_issue results issue)).
    destruct IH as (H0 & H1 & H2 & H3 & H4 & H5).
    rewrite H0, H1, H2, H3, H4, H5. rewrite !filter_cons. clear.
    unfold count_issue.
    repeat case_bool_decide; repeat case_decide; simpl; try congruence;
      repeat split; lia.
Qed.

Lemma Analyze_Issues (files : list SourceFile) (sched : list nat) :
  Issues (Analyze ext a files sched).1.1
  = (security_scan ext a files (run_units ext a files sched ([], []))).1.
Proof.
  unfold Analyze. cbv zeta. simpl.
  by destruct (count_loop_spec
                 (security_scan ext a files
                    (run_units ext a files sched ([], []))).1
                 (mkResults (security_scan ext a files
                    (run_units ext a files sched ([], []))).1 0 0 0 0 0))
    as (H0 & _).
Qed.

(** C9. In the result of [Analyze], [TotalIssues] is the length of [Issues]
    and each of [CriticalIssues], [HighIssues], [MediumIssues] and
    [LowIssues] is the number of findings of [Issues] of that severity;
    [Issues] is the list as the units of work and then the security scan
    left it, and the counts come from one pass over it. *)
Theorem Analyze_counts (files : list SourceFile) (sched : list nat) :
  let results := (Analyze ext a files sched).1.1 in
  let merged := (security_scan ext a files
                   (run_units ext a files sched ([], []))).1 in
  Issues results = merged
  ∧ results = foldl count_issue (mkResults merged 0 0 0 0 0) merged
  ∧ TotalIssues results = len (Issues results)
  ∧ CriticalIssues results = count_severity "critical" (Issues results)
  ∧ HighIssues results = count_severity "high" (Issues results)
  ∧ MediumIssues results = count_severity "medium" (Issues results)
  ∧ LowIssues results = count_severity "low" (Issues results).
Proof.
  intros results merged. subst results. unfold Analyze. cbv zeta. simpl.
  fold merged.
  destruct (count_loop_spec merged (mkResults merged 0 0 0 0 0))
    as (H0 & H1 & H2 & H3 & H4 & H5).
  cbv zeta in *. simpl in *.
  rewrite H0, H1, H2, H3, H4, H5. repeat split; lia.
Qed.

(** C8, as the code has it.  A file that cannot be read or parsed
    contributes no finding and stops nothing: [Analyze] returns no error,
    and the findings of its result are those of the files that were
    analysed, in the order their units of work took effect, followed by
    those of the security scan.  The failure itself is kept nowhere in the
    result; it is printed to standard error when [Verbose] is set, and not
    otherwise. *)
Theorem Analyze_skips_failures (files : list SourceFile) (sched : list nat) :
  schedule files sched →
  let out := Analyze ext a files sched in
  out.1.2 = None
  ∧ Issues out.1.1
    = concat (file_findings ext a <$> in_order files sched)
      ++ scan_findings ext files
  ∧ Issues out.1.1
    ≡ₚ concat (file_findings ext a <$> files) ++ scan_findings ext files
  ∧ (∀ f err, analyzeFile ext a f = inr err → file_findings ext a f = [])
  ∧ out.2 = (if Verbose (config a)
             then concat (file_errors ext a <$> in_order files sched)
                  ++ scan_errors ext files
             else []).
Proof.
  intros Hs out.
  assert (Hst : security_scan ext a files (run_units ext a files sched ([], []))
    = (concat (file_findings ext a <$> in_order files sched)
         ++ scan_findings ext files,
       if Verbose (config a)
       then concat (file_errors ext a <$> in_order files sched)
            ++ scan_errors ext files
       else [])).
  { rewrite security_scan_spec, run_units_spec. simpl.
    by destruct (Verbose (config a)). }
  assert (HI : Issues out.1.1
               = concat (file_findings ext a <$> in_order files sched)
                 ++ scan_findings ext files).
  { subst out. by rewrite Analyze_Issues, Hst. }
  split; [done|]. split; [exact HI|]. split.
  { rewrite HI. by rewrite (in_order_schedule files sched Hs). }
  split.
  { intros f err Hf. unfold file_findings. by rewrite Hf. }
  subst out. unfold Analyze. cbv zeta. simpl. by rewrite Hst.
Qed.

End AnalyzeFacts.

Lemma Analyze_skips_failures_witness :
  Issues (Analyze cx_ext cx_analyzer [cx_good; cx_bad] [1%nat; 0%nat]).1.1
  = concat (file_findings cx_ext cx_analyzer
              <$> in_order [cx_good; cx_bad] [1%nat; 0%nat])
    ++ scan_findings cx_ext [cx_good; cx_bad].
Proof.
  refine (proj1 (proj2 (Analyze_skips_failures cx_ext cx_analyzer
                          [cx_good; cx_bad] [1%nat; 0%nat] _))).
  unfold schedule. simpl. apply perm_swap.
Defined.

(** C8, the part that fails.  With [Verbose] off, the run over a file that
    parses, with two findings, and a file that does not returns those two
    findings and no error, and prints nothing: the parse error of the second
    file is recorded nowhere. *)
Lemma Analyze_parse_error_not_recorded :
  analyzeFile cx_ext cx_analyzer cx_bad = inr "expected 'package'"
  ∧ Analyze cx_ext cx_analyzer [cx_good; cx_bad] [0%nat; 1%nat]
    = (mkResults [set_File cx_finding "good.go"; set_File cx_finding "good.go"]
                 2 0 0 2 0, None, [])
  ∧ ¬ error_recorded
        (Analyze cx_ext cx_analyzer [cx_good; cx_bad] [0%nat; 1%nat]) cx_bad.
Proof.
  split; [reflexivity|]. split; [reflexivity|].
  intros [H | [err H]].
  - by apply H.
  - by apply elem_of_nil in H.
Qed.

(* ===================================================================== *)
(** * float64: the order of the comparisons *)
(* ===================================================================== *)

Lemma SFcompare_key (x y : spec_float) :
  SFcompare x y =
    match SFkey x, SFkey y with
    | Some a, Some b => Some (key_cmp a b)
    | _, _ => None
    end.
Proof.
  destruct x as [[]|[]| |[] m e], y as [[]|[]| |[] m' e']; try reflexivity;
    unfold key_cmp; simpl.
  all: try (rewrite Z.compare_opp, (Z.compare_antisym e e')).
  all: destruct (e ?= e') eqn:He; simpl; try reflexivity.
  all: rewrite ?Pos.compare_cont_spec; simpl.
Qed.

Lemma key_cmp_Lt (a b : Key) : key_cmp a b = Lt ↔ key_lt a b.
Proof.
  unfold key_cmp, key_lt.
  destruct (Z.compare_spec a.1.1 b.1.1), (Z.compare_spec a.1.2 b.1.2), (Z.compare_spec a.2 b.2); split; try done; lia.
Qed.

Lemma key_cmp_Eq (a b : Key) : key_cmp a b = Eq ↔ a = b.
Proof.
  unfold key_cmp. destruct a as [[a1 a2] a3], b as [[b1 b2] b3]; simpl.
  destruct (Z.compare_spec a1 b1), (Z.compare_spec a2 b2), (Z.compare_spec a3 b3); split; try done; try (intros [=]; lia). intros _; by subst.
Qed.

Lemma key_cmp_Gt (a b : Key) : key_cmp a b = Gt ↔ key_lt b a.
Proof.
  unfold key_cmp, key_lt.
  destruct (Z.compare_spec a.1.1 b.1.1), (Z.compare_spec a.1.2 b.1.2), (Z.compare_spec a.2 b.2); split; try done; lia.
Qed.

Lemma ltb_key (x y : float) :
  PrimFloat.ltb x y = true ↔ ∃ a b, fkey x = Some a ∧ fkey y = Some b ∧ key_lt a b.
Proof.
  rewrite FloatAxioms.ltb_spec. unfold SFltb, fkey. rewrite SFcompare_key.
  destruct (SFkey (Prim2SF x)) as [a|], (SFkey (Prim2SF y)) as [b|];
    try (split; [done | by intros (? & ? & ? & ? & ?)]).
  destruct (key_cmp a b) eqn:Hc.
  - split; [done|]. intros (? & ? & [= <-] & [= <-] & H). apply key_cmp_Lt in H. congruence.
  - split; [|done]. intros _. exists a, b. by rewrite <- key_cmp_Lt.
  - split; [done|]. intros (? & ? & [= <-] & [= <-] & H). apply key_cmp_Lt in H. congruence.
Qed.

Lemma leb_key (x y : float) :
  PrimFloat.leb x y = true ↔ ∃ a b, fkey x = Some a ∧ fkey y = Some b ∧ ¬ key_lt b a.
Proof.
  rewrite FloatAxioms.leb_spec. unfold SFleb, fkey. rewrite SFcompare_key.
  destruct (SFkey (Prim2SF x)) as [a|], (SFkey (Prim2SF y)) as [b|];
    try (split; [done | by intros (? & ? & ? & ? & ?)]).
  destruct (key_cmp a b) eqn:Hc.
  - split; [|done]. intros _. exists a, b. repeat split. rewrite <- key_cmp_Gt. congruence.
  - split; [|done]. intros _. exists a, b. repeat split. rewrite <- key_cmp_Gt. congruence.
  - split; [done|]. intros (? & ? & [= <-] & [= <-] & H). by apply key_cmp_Gt in Hc.
Qed.

(* ===================================================================== *)
(** * float64: no operation of the ranking yields a NaN *)
(* ===================================================================== *)

Lemma digits2_pos_size (p : positive) : digits2_pos p = Pos.size p.
Proof. induction p; simpl; congruence. Qed.

Lemma Zdigits2_log2 (x : Z) : 0 < x → Zdigits2 x = Z.log2 x + 1.
Proof.
  destruct x as [|p|p]; try lia. intros _. simpl. rewrite digits2_pos_size.
  destruct p; simpl; lia.
Qed.

Lemma Zdigits2_pos (x : Z) : 0 < x → 0 < Zdigits2 x.
Proof. intros H. rewrite Zdigits2_log2 by done. pose proof (Z.log2_nonneg x). lia. Qed.

Lemma Zdigits2_nonneg (x : Z) : 0 ≤ x → 0 ≤ Zdigits2 x.
Proof. intros H. destruct (decide (x = 0)) as [->|]; [done|]. pose proof (Zdigits2_pos x). lia. Qed.

Lemma Zdigits2_mono (x y : Z) : 0 ≤ x ≤ y → Zdigits2 x ≤ Zdigits2 y.
Proof.
  intros [Hx Hy]. destruct (decide (x = 0)) as [->|]; [by apply Zdigits2_nonneg|].
  rewrite !Zdigits2_log2 by lia. pose proof (Z.log2_le_mono x y Hy). lia.
Qed.

Lemma Zdigits2_succ (x : Z) : 0 ≤ x → Zdigits2 (x + 1) ≤ Zdigits2 x + 1.
Proof.
  intros Hx. destruct (decide (x = 0)) as [->|]; [done|].
  rewrite !Zdigits2_log2 by lia. pose proof (Z.log2_succ_le x).
  replace (x + 1) with (Z.succ x) by lia. lia.
Qed.

Lemma Zdigits2_shiftr (x k : Z) :
  0 ≤ x → 0 ≤ k → Zdigits2 (x / 2 ^ k) = Z.max 0 (Zdigits2 x - k).
Proof.
  intros Hx Hk. destruct (decide (x = 0)) as [->|Hx0].
  { rewrite Z.div_0_l by (apply Z.pow_nonzero; lia). simpl. lia. }
  rewrite (Zdigits2_log2 x) by lia.
  rewrite <- Z.shiftr_div_pow2 by done.
  pose proof (Z.log2_shiftr x k ltac:(lia)) as Hl.
  destruct (decide (Z.shiftr x k = 0)) as [H0|H0].
  - rewrite H0. simpl. rewrite Z.shiftr_eq_0_iff in H0.
    destruct H0 as [->|[_ H0]]; lia.
  - pose proof (Z.shiftr_nonneg x k). rewrite Zdigits2_log2 by lia.
    rewrite Hl. assert (k ≤ Z.log2 x); [|lia].
    destruct (Z.le_gt_cases k (Z.log2 x)); [done|].
    exfalso. apply H0. apply Z.shiftr_eq_0; lia.
Qed.

Lemma Zdigits2_mul (x y : Z) : 0 ≤ x → 0 ≤ y → Zdigits2 (x * y) ≤ Zdigits2 x + Zdigits2 y.
Proof.
  intros Hx Hy. destruct (decide (x = 0)) as [->|]; [simpl; by apply Zdigits2_nonneg|].
  destruct (decide (y = 0)) as [->|]. { rewrite Z.mul_0_r. simpl. pose proof (Zdigits2_nonneg x). lia. }
  rewrite !Zdigits2_log2 by nia. pose proof (Z.log2_mul_above x y Hx Hy). lia.
Qed.

Lemma Zdigits2_shiftl (x k : Z) : 0 < x → 0 ≤ k → Zdigits2 (x * 2 ^ k) = Zdigits2 x + k.
Proof.
  intros Hx Hk. assert (0 < 2 ^ k) by (apply Z.pow_pos_nonneg; lia).
  rewrite !Zdigits2_log2 by nia. rewrite Z.log2_mul_pow2 by lia. lia.
Qed.

Lemma Zdigits2_add (x y : Z) : 0 ≤ x → 0 ≤ y → Zdigits2 (x + y) ≤ Z.max (Zdigits2 x) (Zdigits2 y) + 1.
Proof.
  intros Hx Hy. destruct (decide (Z.max x y = 0)) as [H0|H0].
  { assert (x = 0) as -> by lia. assert (y = 0) as -> by lia. done. }
  transitivity (Zdigits2 (2 * Z.max x y)).
  { apply Zdigits2_mono. lia. }
  rewrite (Zdigits2_log2 (2 * _)) by lia. rewrite Z.log2_double by lia.
  destruct (Z.max_spec x y) as [[_ E]|[_ E]]; rewrite E in *.
  - pose proof (Zdigits2_log2 y ltac:(lia)). lia.
  - pose proof (Zdigits2_log2 x ltac:(lia)). lia.
Qed.

Lemma Zdigits2_div (x y : Z) : 0 ≤ x → 0 < y → Zdigits2 (x / y) ≤ Z.max 0 (Zdigits2 x - Zdigits2 y + 1).
Proof.
  intros Hx Hy.
  pose proof (Z.log2_spec y Hy) as [Hlo _]. pose proof (Z.log2_nonneg y).
  assert (0 < 2 ^ Z.log2 y) by (apply Z.pow_pos_nonneg; lia).
  transitivity (Zdigits2 (x / 2 ^ Z.log2 y)).
  { apply Zdigits2_mono. split; [apply Z.div_pos; lia|]. apply Z.div_le_compat_l; lia. }
  rewrite Zdigits2_shiftr by lia. rewrite (Zdigits2_log2 y) by lia. lia.
Qed.

(** The right shifts of the rounding step divide the mantissa. *)
Lemma shr_1_m (mrs : shr_record) : 0 ≤ shr_m mrs → shr_m (shr_1 mrs) = shr_m mrs / 2.
Proof.
  destruct mrs as [m r s]. simpl. intros Hm.
  destruct m as [|[p|p|]|]; simpl; try lia; try done.
  - rewrite Pos2Z.inj_xI. apply (Z.div_unique _ 2 _ 1); lia.
  - rewrite Pos2Z.inj_xO. apply (Z.div_unique _ 2 _ 0); lia.
Qed.

Lemma iter_pos_shr_1 (p : positive) (mrs : shr_record) :
  0 ≤ shr_m mrs → shr_m (SpecFloat.iter_pos shr_1 p mrs) = shr_m mrs / 2 ^ Z.pos p.
Proof.
  revert mrs. induction p as [p IH|p IH|]; intros mrs Hm; simpl SpecFloat.iter_pos.
  - assert (H1 : 0 ≤ shr_m (shr_1 mrs)) by (rewrite shr_1_m by done; apply Z.div_pos; lia).
    assert (0 < 2 ^ Z.pos p) by (apply Z.pow_pos_nonneg; lia).
    assert (H2 : 0 ≤ shr_m (SpecFloat.iter_pos shr_1 p (shr_1 mrs))) by (rewrite IH by done; apply Z.div_pos; lia).
    rewrite IH, IH, shr_1_m by done.
    rewrite !Z.div_div by lia. f_equal.
    replace (Z.pos p~1) with (1 + Z.pos p + Z.pos p) by lia.
    rewrite !Z.pow_add_r by lia. lia.
  - assert (0 < 2 ^ Z.pos p) by (apply Z.pow_pos_nonneg; lia).
    assert (H2 : 0 ≤ shr_m (SpecFloat.iter_pos shr_1 p mrs)) by (rewrite IH by done; apply Z.div_pos; lia).
    rewrite IH, IH by done.
    rewrite !Z.div_div by lia. f_equal.
    replace (Z.pos p~0) with (Z.pos p + Z.pos p) by lia.
    rewrite !Z.pow_add_r by lia. lia.
  - by apply shr_1_m.
Qed.

Lemma shr_spec (mrs : shr_record) (e n : Z) :
  0 ≤ shr_m mrs →
  shr_m (shr mrs e n).1 = shr_m mrs / 2 ^ Z.max 0 n
  ∧ (shr mrs e n).2 = e + Z.max 0 n.
Proof.
  intros Hm. unfold shr. destruct n as [|p|p]; simpl.
  - rewrite Z.div_1_r. lia.
  - rewrite iter_pos_shr_1 by done. split; [done|lia].
  - rewrite Z.div_1_r. lia.
Qed.

Lemma shr_record_of_loc_m (m : Z) (l : location) : shr_m (shr_record_of_loc m l) = m.
Proof. by destruct l as [|[]]. Qed.

Lemma round_nearest_even_range (m : Z) (l : location) :
  m ≤ round_nearest_even m l ≤ m + 1.
Proof. unfold round_nearest_even. destruct l as [|[]]; try destruct (Z.even m); lia. Qed.

Lemma binary_round_aux_bounded (sx : bool) (mx ex : Z) (lx : location) (E : Z) :
  0 ≤ mx → ex ≤ 971 → Zdigits2 mx + ex ≤ E → -1074 ≤ E → E < 1024 →
  SFbounded (E + 1) (binary_round_aux prec emax sx mx ex lx)
  ∧ (0 < mx → -1074 ≤ ex → SFlarge (Zdigits2 mx + ex) (binary_round_aux prec emax sx mx ex lx)).
Proof.
  intros Hm Hex HE Hmin Hmax. unfold binary_round_aux, shr_fexp.
  pose proof (shr_spec (shr_record_of_loc mx lx) ex
                (fexp prec emax (Zdigits2 mx + ex) - ex)) as Hs1.
  rewrite shr_record_of_loc_m in Hs1. specialize (Hs1 Hm).
  destruct (shr (shr_record_of_loc mx lx) ex _) as [mrs' e']. simpl in Hs1.
  destruct Hs1 as [Hm' He'].
  set (m1 := round_nearest_even (shr_m mrs') (loc_of_shr_record mrs')).
  pose proof (round_nearest_even_range (shr_m mrs') (loc_of_shr_record mrs')) as Hr.
  fold m1 in Hr.
  set (k1 := Z.max 0 (fexp prec emax (Zdigits2 mx + ex) - ex)) in *.
  assert (Hk1 : 0 ≤ k1) by lia.
  assert (H2k1 : 0 < 2 ^ k1) by (apply Z.pow_pos_nonneg; lia).
  assert (Hm'0 : 0 ≤ shr_m mrs') by (rewrite Hm'; apply Z.div_pos; lia).
  assert (Hm1 : 0 ≤ m1) by lia.
  pose proof (shr_spec (shr_record_of_loc m1 loc_Exact) e'
                (fexp prec emax (Zdigits2 m1 + e') - e')) as Hs2.
  rewrite shr_record_of_loc_m in Hs2. specialize (Hs2 Hm1).
  destruct (shr (shr_record_of_loc m1 loc_Exact) e' _) as [mrs'' e'']. simpl in Hs2.
  destruct Hs2 as [Hm'' He''].
  set (k2 := Z.max 0 (fexp prec emax (Zdigits2 m1 + e') - e')) in *.
  assert (Hk2 : 0 ≤ k2) by lia.
  assert (Hd' : Zdigits2 (shr_m mrs') = Z.max 0 (Zdigits2 mx - k1)).
  { rewrite Hm'. by apply Zdigits2_shiftr. }
  assert (Hd1 : Zdigits2 (shr_m mrs') ≤ Zdigits2 m1 ≤ Zdigits2 (shr_m mrs') + 1).
  { split; [apply Zdigits2_mono; lia|].
    transitivity (Zdigits2 (shr_m mrs' + 1)); [apply Zdigits2_mono; lia|by apply Zdigits2_succ]. }
  assert (Hd'' : Zdigits2 (shr_m mrs'') = Z.max 0 (Zdigits2 m1 - k2)).
  { rewrite Hm''. by apply Zdigits2_shiftr. }
  assert (Hm''0 : 0 ≤ shr_m mrs'').
  { rewrite Hm''. apply Z.div_pos; [lia|]. apply Z.pow_pos_nonneg; lia. }
  pose proof (Zdigits2_nonneg mx Hm) as Hdx.
  unfold fexp, SpecFloat.emin, emax, prec in *.
  destruct (shr_m mrs'') as [|m''|m''] eqn:Em''; [| |lia].
  - split; [done|]. intros Hpos Hlo. exfalso.
    pose proof (Zdigits2_pos mx Hpos). simpl in Hd''. lia.
  - change (Zdigits2 (Z.pos m'')) with (Z.pos (digits2_pos m'')) in Hd''.
    assert (He : e'' ≤ 1024 - 53) by lia.
    apply Z.leb_le in He. rewrite He. simpl. split; [lia|].
    intros Hpos Hlo. pose proof (Zdigits2_pos mx Hpos). lia.
Qed.

Lemma SFbounded_mono (E E' : Z) (x : spec_float) : E ≤ E' → SFbounded E x → SFbounded E' x.
Proof. intros HE. destruct x; simpl; try done. lia. Qed.

Lemma SFbounded_key (E : Z) (x : spec_float) : SFbounded E x → is_Some (SFkey x).
Proof. destruct x as [[]|[]| |[] m e]; simpl; try done; eauto. Qed.

Lemma SFlarge_finite (L : Z) (x : spec_float) :
  SFlarge L x → ∃ s m e, x = S754_finite s m e ∧ L ≤ Z.pos (digits2_pos m) + e.
Proof. destruct x as [| | |s m e]; simpl; try done. eauto. Qed.

Lemma shl_align_spec (mx : positive) (ex ex' : Z) :
  (shl_align mx ex ex').2 = Z.min ex ex'
  ∧ Z.pos (shl_align mx ex ex').1 = Z.pos mx * 2 ^ (ex - Z.min ex ex').
Proof.
  unfold shl_align. destruct (ex' - ex) as [|d|d] eqn:Hd; simpl.
  - replace (Z.min ex ex') with ex by lia. rewrite Z.sub_diag. simpl. lia.
  - replace (Z.min ex ex') with ex by lia. rewrite Z.sub_diag. simpl. lia.
  - replace (Z.min ex ex') with ex' by lia. split; [done|].
    replace (ex - ex') with (Z.pos d) by lia.
    change (Pos.iter xO mx d) with (shift_pos d mx).
    rewrite shift_pos_correct, Zpower_pos_nat, Zpower_nat_Z, positive_nat_Z. lia.
Qed.

Lemma binary_round_bounded (sx : bool) (mx : positive) (ex E : Z) :
  Z.pos (digits2_pos mx) + ex ≤ E → ex ≤ 971 → -1074 ≤ E → E < 1024 →
  SFbounded (E + 1) (binary_round prec emax sx mx ex)
  ∧ (-1074 ≤ ex →
     SFlarge (Z.pos (digits2_pos mx) + ex) (binary_round prec emax sx mx ex)).
Proof.
  intros HE Hex Hlo Hhi. unfold binary_round.
  pose proof (shl_align_spec mx ex (fexp prec emax (Z.pos (digits2_pos mx) + ex)))
    as [He Hm].
  destruct (shl_align mx ex _) as [mz ez]. simpl in He, Hm.
  assert (Hez : ez ≤ ex) by lia.
  assert (Hd : Zdigits2 (Z.pos mz) + ez = Z.pos (digits2_pos mx) + ex).
  { rewrite Hm, <- He. rewrite Zdigits2_shiftl by lia. simpl. lia. }
  destruct (binary_round_aux_bounded sx (Z.pos mz) ez loc_Exact E) as [Hb Hl];
    try lia.
  split; [done|]. intros Hex'. rewrite <- Hd. apply Hl; [lia|].
  rewrite He. unfold fexp, SpecFloat.emin, emax, prec. lia.
Qed.

Lemma binary_normalize_bounded (z e E : Z) (szero : bool) :
  Zdigits2 (Z.abs z) + e ≤ E → e ≤ 971 → e ≤ E → -1074 ≤ E → E < 1024 →
  SFbounded (E + 1) (binary_normalize prec emax z e szero)
  ∧ (z ≠ 0 → -1074 ≤ e →
     SFlarge (Zdigits2 (Z.abs z) + e) (binary_normalize prec emax z e szero)).
Proof.
  intros HE He HeE Hlo Hhi. unfold binary_normalize.
  destruct z as [|p|p]; simpl in *.
  - done.
  - pose proof (binary_round_bounded false p e E HE He Hlo Hhi) as [Hb Hl].
    split; [exact Hb|]. intros _ He'. by apply Hl.
  - pose proof (binary_round_bounded true p e E HE He Hlo Hhi) as [Hb Hl].
    split; [exact Hb|]. intros _ He'. by apply Hl.
Qed.

Lemma of_uint63_bounded (n : int) :
  SFbounded 64 (Prim2SF (of_uint63 n))
  ∧ (Uint63.to_Z n ≠ 0 → SFlarge 1 (Prim2SF (of_uint63 n))).
Proof.
  rewrite of_uint63_spec. pose proof (to_Z_bounded n) as [Hn0 Hn].
  change wB with (2 ^ 63) in Hn.
  assert (Hd : Zdigits2 (Z.abs (Uint63.to_Z n)) ≤ 63).
  { rewrite Z.abs_eq by done. destruct (decide (Uint63.to_Z n = 0)) as [->|Hz]; [done|].
    rewrite Zdigits2_log2 by lia.
    assert (Z.log2 (Uint63.to_Z n) < 63) by (apply Z.log2_lt_pow2; lia). lia. }
  destruct (binary_normalize_bounded (Uint63.to_Z n) 0 63 false) as [Hb Hl]; try lia.
  split; [done|]. intros Hz.
  specialize (Hl Hz ltac:(lia)).
  apply SFlarge_finite in Hl as (s & m & e & -> & Hl). simpl.
  pose proof (Zdigits2_pos (Z.abs (Uint63.to_Z n))). lia.
Qed.

Lemma Zdiv_eucl_fst (a b : Z) : (Z.div_eucl a b).1 = a / b.
Proof. unfold Z.div. by destruct (Z.div_eucl a b). Qed.

Lemma SFdiv_bounded (x y : spec_float) (Ex Ly : Z) :
  SFbounded Ex x → SFlarge Ly y → -1074 ≤ Ex - Ly → Ex - Ly < 1023 →
  SFbounded (Ex - Ly + 2) (SFdiv prec emax x y).
Proof.
  intros Hx Hy Hlo Hhi.
  apply SFlarge_finite in Hy as (sy & my & ey & -> & Hy).
  destruct x as [sx| | |sx mx ex]; simpl in Hx; try done.
  unfold SFdiv.
  destruct (SFdiv_core_binary prec emax (Z.pos mx) ex (Z.pos my) ey)
    as [[mz ez] lz] eqn:Hcore.
  unfold SFdiv_core_binary in Hcore.
  set (d1 := Zdigits2 (Z.pos mx)) in *. set (d2 := Zdigits2 (Z.pos my)) in *.
  assert (Hd1 : d1 = Z.pos (digits2_pos mx)) by done.
  assert (Hd2 : d2 = Z.pos (digits2_pos my)) by done.
  set (e' := Z.min (fexp prec emax (d1 + ex - (d2 + ey))) (ex - ey)) in *.
  set (s := ex - ey - e') in *.
  assert (Hs : 0 ≤ s) by lia.
  set (m' := match s with
             | 0 => Z.pos mx
             | Z.pos _ => Z.shiftl (Z.pos mx) s
             | Z.neg _ => 0
             end) in *.
  assert (Hm' : m' = Z.pos mx * 2 ^ s).
  { subst m'. destruct s as [|p|p] eqn:Es; [simpl; lia| |lia].
    by rewrite Z.shiftl_mul_pow2. }
  pose proof (Zdiv_eucl_fst m' (Z.pos my)) as Hq.
  destruct (Z.div_eucl m' (Z.pos my)) as [q r]. simpl in Hq.
  injection Hcore as <- <- <-.
  assert (H2s : 0 < 2 ^ s) by (apply Z.pow_pos_nonneg; lia).
  assert (Hq0 : 0 ≤ q) by (rewrite Hq; apply Z.div_pos; nia).
  assert (Hdq : Zdigits2 q ≤ Z.max 0 (d1 + s - d2 + 1)).
  { rewrite Hq. etransitivity; [apply Zdigits2_div; nia|].
    rewrite Hm', Zdigits2_shiftl by lia. fold d1 d2. lia. }
  assert (He'1 : e' ≤ 971).
  { subst e'. unfold fexp, SpecFloat.emin, emax, prec. lia. }
  assert (He'2 : Zdigits2 q + e' ≤ Ex - Ly + 1).
  { subst e' s. unfold fexp, SpecFloat.emin, emax, prec in *. lia. }
  destruct (binary_round_aux_bounded (xorb sx sy) q e' (new_location (Z.pos my) r) (Ex - Ly + 1))
    as [Hb _]; try lia.
  replace (Ex - Ly + 2) with (Ex - Ly + 1 + 1) by lia. exact Hb.
Qed.

Lemma SFmul_bounded (x y : spec_float) (E1 E2 : Z) :
  SFbounded E1 x → SFbounded E2 y → -1074 ≤ E1 + E2 → E1 + E2 ≤ 973 →
  SFbounded (E1 + E2 + 1) (SFmul prec emax x y).
Proof.
  intros Hx Hy Hlo Hhi.
  destruct x as [sx| | |sx mx ex], y as [sy| | |sy my ey]; simpl in *; try done.
  pose proof (Zdigits2_mul (Z.pos mx) (Z.pos my) ltac:(lia) ltac:(lia)) as Hd.
  simpl in Hd. pose proof (Zdigits2_pos (Z.pos mx) ltac:(lia)) as H1.
  pose proof (Zdigits2_pos (Z.pos my) ltac:(lia)) as H2. simpl in H1, H2.
  destruct (binary_round_aux_bounded (xorb sx sy) (Z.pos (mx * my)) (ex + ey)
              loc_Exact (E1 + E2)) as [Hb _]; simpl; try lia.
  exact Hb.
Qed.

Lemma SFadd_bounded (x y : spec_float) (E : Z) :
  SFbounded E x → SFbounded E y → -1074 ≤ E → E ≤ 972 →
  SFbounded (E + 2) (SFadd prec emax x y).
Proof.
  intros Hx Hy Hlo Hhi.
  destruct x as [sx| | |sx mx ex], y as [sy| | |sy my ey]; simpl in Hx, Hy;
    try done.
  - simpl. by destruct sx, sy.
  - simpl. lia.
  - simpl. lia.
  - unfold SFadd. set (ez := Z.min ex ey).
    pose proof (shl_align_spec mx ex ez) as [_ Ha].
    pose proof (shl_align_spec my ey ez) as [_ Hb].
    replace (Z.min ex ez) with ez in Ha by lia.
    replace (Z.min ey ez) with ez in Hb by lia.
    set (a := Z.pos (shl_align mx ex ez).1) in *.
    set (b := Z.pos (shl_align my ey ez).1) in *.
    set (z := cond_Zopp sx a + cond_Zopp sy b).
    assert (Hz : Z.abs z ≤ a + b).
    { subst z. unfold cond_Zopp. destruct sx, sy; lia. }
    assert (Hda : Zdigits2 a + ez = Z.pos (digits2_pos mx) + ex).
    { rewrite Ha, Zdigits2_shiftl by lia. simpl. lia. }
    assert (Hdb : Zdigits2 b + ez = Z.pos (digits2_pos my) + ey).
    { rewrite Hb, Zdigits2_shiftl by lia. simpl. lia. }
    assert (Hdz : Zdigits2 (Z.abs z) ≤ Z.max (Zdigits2 a) (Zdigits2 b) + 1).
    { etransitivity; [apply Zdigits2_mono; split; [lia|exact Hz]|].
      apply Zdigits2_add; lia. }
    pose proof (Zdigits2_pos (Z.pos mx) ltac:(lia)) as H1.
    pose proof (Zdigits2_pos (Z.pos my) ltac:(lia)) as H2. simpl in H1, H2.
    destruct (binary_normalize_bounded z ez (E + 1) false) as [Hn _]; try lia.
    replace (E + 2) with (E + 1 + 1) by lia. exact Hn.
Qed.

Lemma fbounded_key (E : Z) (x : float) : fbounded E x → is_Some (fkey x).
Proof. apply SFbounded_key. Qed.

Lemma float64_bounded (n : Z) : fbounded 64 (float64 n).
Proof. apply of_uint63_bounded. Qed.

Lemma div_bounded (a n : Z) :
  0 < n < 2 ^ 63 → fbounded 65 (float64 a / float64 n).
Proof.
  intros Hn. unfold fbounded. rewrite FloatAxioms.div_spec.
  destruct (of_uint63_bounded (Uint63.of_Z a)) as [Ha _].
  destruct (of_uint63_bounded (Uint63.of_Z n)) as [_ Hl].
  assert (Hz : Uint63.to_Z (Uint63.of_Z n) ≠ 0).
  { rewrite Uint63.of_Z_spec. change wB with (2 ^ 63). rewrite Z.mod_small; lia. }
  apply (SFdiv_bounded _ _ 64 1 Ha (Hl Hz)); lia.
Qed.

Lemma half_bounded : fbounded 0 0.5.
Proof. unfold fbounded. vm_compute. discriminate. Qed.

Lemma score_bounded (s : Z) (r : float) :
  fbounded 65 r → fbounded 133 (float64 s * (0.5 + 0.5 * r)).
Proof.
  intros Hr. unfold fbounded in *. rewrite FloatAxioms.mul_spec, FloatAxioms.add_spec, FloatAxioms.mul_spec.
  pose proof half_bounded as Hh. unfold fbounded in Hh.
  pose proof (SFmul_bounded _ _ 0 65 Hh Hr ltac:(lia) ltac:(lia)) as Ht.
  pose proof (SFadd_bounded _ _ 66 (SFbounded_mono 0 66 _ ltac:(lia) Hh) Ht
                ltac:(lia) ltac:(lia)) as Hu.
  pose proof (float64_bounded s) as Hs. unfold fbounded in Hs.
  apply (SFmul_bounded _ _ 64 68 Hs Hu); lia.
Qed.

(* ===================================================================== *)
(** * float64: the facts the ranking uses *)
(* ===================================================================== *)

Lemma ltb_irrefl (x : float) : PrimFloat.ltb x x = false.
Proof.
  apply not_true_iff_false. rewrite ltb_key.
  intros (a & b & Ha & Hb & Hlt). rewrite Ha in Hb. injection Hb as <-.
  unfold key_lt in Hlt. lia.
Qed.

Lemma ltb_trans (x y z : float) :
  PrimFloat.ltb x y = true → PrimFloat.ltb y z = true →
  PrimFloat.ltb x z = true.
Proof.
  rewrite !ltb_key. intros (a & b & Ha & Hb & H1) (b' & c & Hb' & Hc & H2).
  rewrite Hb in Hb'. injection Hb' as <-. exists a, c.
  repeat split; [done..|]. unfold key_lt in *. lia.
Qed.

Lemma leb_ltb_trans (x y z : float) :
  PrimFloat.leb x y = true → PrimFloat.ltb y z = true →
  PrimFloat.ltb x z = true.
Proof.
  rewrite leb_key, !ltb_key.
  intros (a & b & Ha & Hb & H1) (b' & c & Hb' & Hc & H2).
  rewrite Hb in Hb'. injection Hb' as <-. exists a, c.
  repeat split; [done..|]. unfold key_lt in *. lia.
Qed.

Lemma ltb_leb_false (x y : float) :
  PrimFloat.ltb x y = true → PrimFloat.leb y x = false.
Proof.
  intros H. apply not_true_iff_false. intros H'.
  pose proof (leb_ltb_trans _ _ _ H' H) as Hyy. by rewrite ltb_irrefl in Hyy.
Qed.

Lemma ltb_false_leb (x y : float) :
  is_Some (fkey x) → is_Some (fkey y) →
  PrimFloat.ltb x y = false → PrimFloat.leb y x = true.
Proof.
  intros [a Ha] [b Hb] H. apply leb_key. exists b, a. repeat split; [done..|].
  intros Hlt. apply not_true_iff_false in H. apply H. apply ltb_key.
  by exists a, b.
Qed.

Lemma ltb_incomp (x y z : float) :
  is_Some (fkey x) → is_Some (fkey y) → is_Some (fkey z) →
  PrimFloat.ltb x y = false → PrimFloat.ltb y z = false →
  PrimFloat.ltb x z = false.
Proof.
  intros Hx Hy Hz H1 H2.
  apply (ltb_false_leb _ _ Hx Hy) in H1. apply (ltb_false_leb _ _ Hy Hz) in H2.
  apply not_true_iff_false. intros H3.
  pose proof (leb_ltb_trans _ _ _ H1 H3) as H4.
  pose proof (leb_ltb_trans _ _ _ H2 H4) as H5. by rewrite ltb_irrefl in H5.
Qed.

Lemma fge_flt (x c : float) :
  is_Some (fkey x) → is_Some (fkey c) → fge x c = negb (flt x c).
Proof.
  intros Hx Hc. unfold fge, flt. destruct (PrimFloat.ltb x c) eqn:Hlt; simpl.
  - by apply ltb_leb_false.
  - by apply ltb_false_leb.
Qed.

(** The acceptance rate is never a NaN, and neither is the score. *)
Lemma GetAcceptanceRate_bounded (c : DataCollector) (ruleID : string) :
  int_lengths c → fbounded 65 (GetAcceptanceRate c ruleID).
Proof.
  intros Hlen. unfold GetAcceptanceRate.
  destruct (issueData c !! ruleID) as [issues|] eqn:Hl.
  - destruct (len issues =? 0) eqn:Hz.
    + apply (SFbounded_mono 0); [lia|apply half_bounded].
    + apply div_bounded. apply Z.eqb_neq in Hz. specialize (Hlen _ _ Hl).
      unfold len in *. lia.
  - apply (SFbounded_mono 0); [lia|apply half_bounded].
Qed.

Lemma GetAcceptanceRate_key (c : DataCollector) (ruleID : string) :
  int_lengths c → is_Some (fkey (GetAcceptanceRate c ruleID)).
Proof. intros H. eapply fbounded_key. by apply GetAcceptanceRate_bounded. Qed.

Lemma score_key (e : LearningEngine) (issue : Issue) :
  int_lengths (dataCollector e) → is_Some (fkey (score e issue)).
Proof.
  intros H. eapply fbounded_key. unfold score. apply score_bounded.
  by apply GetAcceptanceRate_bounded.
Qed.

Lemma int_lengths_empty (cfg : Config) : int_lengths (NewDataCollector cfg).
Proof. intros r l. unfold NewDataCollector. simpl. by rewrite lookup_empty. Defined.

(* ===================================================================== *)
(** * The ranking engine: confidence, filter *)
(* ===================================================================== *)

Lemma GetRuleConfidence_cases (c : DataCollector) (ruleID : string) :
  let rate := GetAcceptanceRate c ruleID in
  (fge rate 0.8 = true → GetRuleConfidence c ruleID = "high")
  ∧ (flt rate 0.5 = true → GetRuleConfidence c ruleID = "low")
  ∧ (fge rate 0.5 = true → flt rate 0.8 = true →
       GetRuleConfidence c ruleID = "medium").
Proof.
  intros rate. unfold GetRuleConfidence. fold rate. repeat split.
  - by intros ->.
  - intros Hlt.
    assert (H8 : fge rate 0.8 = false).
    { apply not_true_iff_false. intros H.
      pose proof (leb_ltb_trans _ _ _ H Hlt) as Hc. by vm_compute in Hc. }
    rewrite H8. unfold fge. by rewrite (ltb_leb_false _ _ Hlt).
  - intros H5 H8. unfold fge at 1. rewrite (ltb_leb_false _ _ H8). by rewrite H5.
Qed.

(** C3. With learning enabled, [AdjustIssueConfidence] changes nothing but
    the confidence of the finding, and moves it at most one step on the scale
    low < medium < high.  When the rate of the rule is at least 0.8, medium
    becomes high and low becomes medium, and high stays; when the rate is
    below 0.5, high becomes medium and medium becomes low, and low stays;
    otherwise the rate is at least 0.5 and below 0.8, and the confidence is
    unchanged. *)
Theorem AdjustIssueConfidence_steps (e : LearningEngine) (issue : Issue) :
  EnableLearning (le_config e) = true →
  int_lengths (dataCollector e) →
  let rate := GetAcceptanceRate (dataCollector e) (Rule issue) in
  let c := Confidence issue in
  let c' := Confidence (AdjustIssueConfidence e issue) in
  AdjustIssueConfidence e issue = set_Confidence issue c'
  ∧ one_step c c'
  ∧ (fge rate 0.8 = true →
       (c = "medium" → c' = "high") ∧ (c = "low" → c' = "medium")
       ∧ (c = "high" → c' = "high"))
  ∧ (flt rate 0.5 = true →
       (c = "high" → c' = "medium") ∧ (c = "medium" → c' = "low")
       ∧ (c = "low" → c' = "low"))
  ∧ (fge rate 0.8 = false → flt rate 0.5 = false →
       fge rate 0.5 = true ∧ flt rate 0.8 = true ∧ c' = c).
Proof.
  intros He Hlen rate c c'.
  destruct (GetRuleConfidence_cases (dataCollector e) (Rule issue))
    as (Hhi & Hlo & Hmid). fold rate in Hhi, Hlo, Hmid.
  assert (Hk : is_Some (fkey rate)) by (by apply GetAcceptanceRate_key).
  assert (H5k : is_Some (fkey 0.5)) by (eexists; vm_compute; reflexivity).
  assert (H8k : is_Some (fkey 0.8)) by (eexists; vm_compute; reflexivity).
  assert (Hcases : GetRuleConfidence (dataCollector e) (Rule issue) = "high"
                   ∧ fge rate 0.8 = true
                   ∨ GetRuleConfidence (dataCollector e) (Rule issue) = "low"
                   ∧ flt rate 0.5 = true
                   ∨ GetRuleConfidence (dataCollector e) (Rule issue) = "medium"
                   ∧ fge rate 0.8 = false ∧ flt rate 0.5 = false).
  { destruct (fge rate 0.8) eqn:H8; [left; by split; [apply Hhi|]|].
    destruct (flt rate 0.5) eqn:H5; [right; left; by split; [apply Hlo|]|].
    right; right. split; [|done]. apply Hmid.
    - rewrite (fge_flt _ _ Hk H5k). by rewrite H5.
    - rewrite (fge_flt _ _ Hk H8k) in H8. by destruct (flt rate 0.8). }
  assert (Hex : fge rate 0.8 = true → flt rate 0.5 = true → False).
  { intros H8 H5. pose proof (leb_ltb_trans _ _ _ H8 H5) as Hc.
    by vm_compute in Hc. }
  subst c'. unfold AdjustIssueConfidence. rewrite He. simpl.
  destruct issue as [f l col m cat sev conf sug code rule]. simpl in *.
  subst c. unfold one_step, level.
  destruct Hcases as [[-> H8]|[[-> H5]|(-> & H8 & H5)]]; simpl;
    repeat case_bool_decide; subst; simpl; try done;
    (split; [done|]); (split; [eauto 10|]);
    repeat split; try done; try congruence;
    try (intros; exfalso; by eauto);
    try (by rewrite (fge_flt _ _ Hk H5k), H5);
    try (rewrite (fge_flt _ _ Hk H8k) in H8; by destruct (flt rate 0.8)).
Qed.

Lemma int_lengths_check (c : DataCollector) :
  bool_decide (map_Forall (λ _ issues, len issues < 2 ^ 63) (issueData c)) = true →
  int_lengths c.
Proof.
  intros H. apply bool_decide_eq_true in H. intros r l Hl. by apply (H r l).
Qed.

Lemma ex_accepted_lengths : int_lengths ex_accepted.
Proof. apply int_lengths_check. by vm_compute. Qed.

Lemma AdjustIssueConfidence_steps_witness :
  Confidence (AdjustIssueConfidence ex_engine ex_issue) = "high".
Proof.
  refine (proj1 (proj1 (proj2 (proj2
            (AdjustIssueConfidence_steps ex_engine ex_issue eq_refl
               ex_accepted_lengths))) _) eq_refl).
  by vm_compute.
Defined.

(** C2. With learning enabled, [FilterIssues] removes the findings whose rule
    has an acceptance rate below 0.3 and keeps every other finding, in the
    order of the input; a finding whose rule has no history, for which the
    rate is 0.5, is kept. *)
Theorem FilterIssues_exact (e : LearningEngine) (issues : list Issue) :
  EnableLearning (le_config e) = true →
  int_lengths (dataCollector e) →
  FilterIssues e issues
    = filter (λ issue,
                flt (GetAcceptanceRate (dataCollector e) (Rule issue)) 0.3
                = false) issues
  ∧ (∀ issue, issue ∈ FilterIssues e issues ↔
       issue ∈ issues
       ∧ flt (GetAcceptanceRate (dataCollector e) (Rule issue)) 0.3 = false)
  ∧ (∀ issue, issue ∈ issues → history (dataCollector e) (Rule issue) = [] →
       GetAcceptanceRate (dataCollector e) (Rule issue) = 0.5%float
       ∧ issue ∈ FilterIssues e issues).
Proof.
  intros He Hlen.
  assert (Heq : FilterIssues e issues
    = filter (λ issue,
                flt (GetAcceptanceRate (dataCollector e) (Rule issue)) 0.3
                = false) issues).
  { unfold FilterIssues. rewrite He. simpl. rewrite filter_loop_filter. simpl.
    apply list_filter_iff. intros issue.
    rewrite (fge_flt _ 0.3 (GetAcceptanceRate_key _ _ Hlen))
      by (eexists; vm_compute; reflexivity).
    by destruct (flt _ _). }
  split; [exact Heq|]. split.
  - intros issue. rewrite Heq, list_elem_of_filter. tauto.
  - intros issue Hin Hh.
    assert (Hr : GetAcceptanceRate (dataCollector e) (Rule issue) = 0.5%float)
      by (by apply GetAcceptanceRate_no_history).
    split; [exact Hr|]. rewrite Heq, list_elem_of_filter. split; [|done].
    rewrite Hr. by vm_compute.
Qed.

Lemma FilterIssues_exact_witness :
  ex_issue ∈ FilterIssues ex_engine0 [ex_issue].
Proof.
  refine (proj2 (proj2 (proj2 (FilterIssues_exact ex_engine0 [ex_issue]
            eq_refl (int_lengths_empty ex_cfg))) ex_issue _ eq_refl)).
  apply list_elem_of_singleton. reflexivity.
Defined.

(* ===================================================================== *)
(** * sort.Slice of the Go distribution meets its documentation *)
(* ===================================================================== *)

Section PdqSort.
Import GoSort.
Context {A : Type} (less : A → A → bool) (d : A).

Local Abbreviation get := (Seg.get d).
Local Abbreviation inb := Seg.inb.
Local Abbreviation le := (Seg.le less).
Local Abbreviation frame := (Seg.frame d).
Local Abbreviation sorted_seg := (Seg.sorted_seg less d).
Local Abbreviation all_seg := (Seg.all_seg d).
Local Abbreviation sorted_but := (Seg.sorted_but less d).
Local Abbreviation pinv := (Seg.pinv less d).
Local Abbreviation is_child := Seg.is_child.
Local Abbreviation hp := (Seg.hp less d).
Local Abbreviation heap := (Seg.heap less d).
Local Abbreviation heap_but := (Seg.heap_but less d).

(** ** The scans of the partitioning loops

    With fuel for every index between [i] and [j], a scan stops at the first
    index at which its condition fails, or behind the last one. *)
Lemma scan_up_spec (fuel : nat) (cond : Z → bool) (i j : Z) :
  (Z.to_nat (j - i + 1) ≤ fuel)%nat →
  let i' := scan_up fuel cond i j in
  i ≤ i' ∧ i' ≤ Z.max i (j + 1)
  ∧ (∀ k, i ≤ k < i' → cond k = true)
  ∧ (i' ≤ j → cond i' = false).
Proof.
  revert i. induction fuel as [|fuel IH]; intros i Hf; simpl.
  - repeat split; try lia. 
  - destruct (i <=? j) eqn:Hij; simpl.
    + apply Z.leb_le in Hij. destruct (cond i) eqn:Hc.
      * specialize (IH (i + 1) ltac:(lia)). simpl in IH.
        destruct IH as (H1 & H2 & H3 & H4). repeat split; try lia; [|done].
        intros k Hk. destruct (decide (k = i)) as [->|]; [done|]. apply H3. lia.
      * repeat split; try lia. done.
    + apply Z.leb_gt in Hij. repeat split; lia.
Qed.

Lemma scan_down_spec (fuel : nat) (cond : Z → bool) (i j : Z) :
  (Z.to_nat (j - i + 1) ≤ fuel)%nat →
  let j' := scan_down fuel cond i j in
  j' ≤ j ∧ Z.min j (i - 1) ≤ j'
  ∧ (∀ k, j' < k ≤ j → cond k = true)
  ∧ (i ≤ j' → cond j' = false).
Proof.
  revert j. induction fuel as [|fuel IH]; intros j Hf; simpl.
  - repeat split; try lia.
  - destruct (i <=? j) eqn:Hij; simpl.
    + apply Z.leb_le in Hij. destruct (cond j) eqn:Hc.
      * specialize (IH (j - 1) ltac:(lia)). simpl in IH.
        destruct IH as (H1 & H2 & H3 & H4). repeat split; try lia; [|done].
        intros k Hk. destruct (decide (k = j)) as [->|]; [done|]. apply H3. lia.
      * repeat split; try lia. done.
    + apply Z.leb_gt in Hij. repeat split; lia.
Qed.



(** ** Reading and swapping *)

Lemma get_lookup (data : list A) (i : Z) :
  inb data i → data !! Z.to_nat i = Some (get data i).
Proof.
  intros [H0 H1]. unfold Seg.get.
  destruct (data !! Z.to_nat i) eqn:E; [done|].
  apply lookup_ge_None in E. unfold len in H1. lia.
Qed.

Lemma Less_get (data : list A) (i j : Z) :
  inb data i → inb data j → Less less data i j = less (get data i) (get data j).
Proof. intros Hi Hj. unfold Less. by rewrite (get_lookup _ _ Hi), (get_lookup _ _ Hj). Qed.

Lemma Swap_eq (data : list A) (i j : Z) :
  inb data i → inb data j →
  Swap data i j = <[Z.to_nat i := get data j]> (<[Z.to_nat j := get data i]> data).
Proof. intros Hi Hj. unfold Swap. by rewrite (get_lookup _ _ Hi), (get_lookup _ _ Hj). Qed.

Lemma Swap_len (data : list A) (i j : Z) : len (Swap data i j) = len data.
Proof.
  unfold Swap, len. destruct (data !! Z.to_nat i), (data !! Z.to_nat j); try done.
  by rewrite !length_insert.
Qed.

Lemma inb_Swap (data : list A) (i j k : Z) : inb (Swap data i j) k ↔ inb data k.
Proof. unfold Seg.inb. by rewrite Swap_len. Qed.

Lemma Swap_get (data : list A) (i j k : Z) :
  inb data i → inb data j → inb data k →
  get (Swap data i j) k =
    if decide (k = i) then get data j
    else if decide (k = j) then get data i else get data k.
Proof.
  intros Hi Hj Hk. rewrite Swap_eq by done. unfold Seg.get at 1.
  destruct Hi as [Hi0 Hi1], Hj as [Hj0 Hj1], Hk as [Hk0 Hk1]. unfold len in *.
  destruct (decide (k = i)) as [->|Hki].
  { rewrite list_lookup_insert_eq; [done|]. rewrite length_insert. lia. }
  rewrite list_lookup_insert_ne by lia.
  destruct (decide (k = j)) as [->|Hkj].
  { rewrite list_lookup_insert_eq; [done|]. lia. }
  rewrite list_lookup_insert_ne by lia. done.
Qed.

Lemma insert_move_perm (l : list A) (k : nat) (y z : A) :
  l !! k = Some y → y :: <[k := z]> l ≡ₚ z :: l.
Proof.
  revert k. induction l as [|w l IH]; intros [|k] Hk; simpl in *; try done.
  - injection Hk as ->. apply perm_swap.
  - rewrite perm_swap. rewrite (IH k Hk). apply perm_swap.
Qed.

Lemma insert_swap_perm (data : list A) (i j : nat) (x y : A) :
  data !! i = Some x → data !! j = Some y →
  <[i := y]> (<[j := x]> data) ≡ₚ data.
Proof.
  revert i j. induction data as [|z data IH]; intros [|i] [|j] Hi Hj;
    simpl in *; try done.
  - injection Hi as ->. by injection Hj as ->.
  - injection Hi as ->. by apply insert_move_perm.
  - injection Hj as ->. by apply insert_move_perm.
  - by rewrite IH.
Qed.

Lemma Swap_perm (data : list A) (i j : Z) : Swap data i j ≡ₚ data.
Proof.
  unfold Swap. destruct (data !! Z.to_nat i) as [x|] eqn:Ei; [|done].
  destruct (data !! Z.to_nat j) as [y|] eqn:Ej; [|done].
  by apply insert_swap_perm.
Qed.

(** ** The order [less] induces

    From here on [less] is what the documentation of [sort.Slice] asks it to
    be. *)
Context (Hok : less_ok less).

Lemma ord_le_refl (x : A) : le x x.
Proof. apply (less_irrefl _ Hok). Qed.

Lemma ord_le_trans (x y z : A) : le x y → le y z → le x z.
Proof. unfold Seg.le. intros H1 H2. by apply (less_incomp _ Hok z y x). Qed.

Lemma ord_le_total (x y : A) : le x y ∨ le y x.
Proof.
  unfold Seg.le. destruct (less y x) eqn:H1; [|by left]. right.
  apply not_true_iff_false. intros H2.
  pose proof (less_trans _ Hok _ _ _ H1 H2) as H3.
  by rewrite (less_irrefl _ Hok) in H3.
Qed.

Lemma ord_lt_le (x y : A) : less x y = true → le x y.
Proof.
  intros H1. destruct (ord_le_total x y) as [|H2]; [done|].
  unfold Seg.le in H2. congruence.
Qed.

Lemma ord_lt_le_trans (x y z : A) : less x y = true → le y z → less x z = true.
Proof.
  unfold Seg.le. intros H1 H2. apply not_false_iff_true. intros H3.
  pose proof (less_incomp _ Hok _ _ _ H3 H2). congruence.
Qed.

Lemma ord_le_lt_trans (x y z : A) : le x y → less y z = true → less x z = true.
Proof.
  unfold Seg.le. intros H1 H2. apply not_false_iff_true. intros H3.
  pose proof (less_incomp _ Hok _ _ _ H1 H3). congruence.
Qed.

Lemma ord_not_lt_le (x y : A) : less x y = false → le y x.
Proof. done. Qed.

(** ** Frames *)

Lemma frame_len (a b : Z) (data data' : list A) : frame a b data data' → len data' = len data.
Proof. intros [H _]. unfold len. by rewrite H. Qed.

Lemma frame_inb (a b : Z) (data data' : list A) (k : Z) :
  frame a b data data' → inb data' k ↔ inb data k.
Proof. intros H. unfold Seg.inb. by rewrite (frame_len _ _ _ _ H). Qed.

Lemma frame_refl (a b : Z) (data : list A) : frame a b data data.
Proof.
  split; [reflexivity|]. split; [intros; reflexivity|].
  intros k Hk. exists k. split; [exact Hk|reflexivity].
Qed.

Lemma frame_trans (a b : Z) (d1 d2 d3 : list A) :
  frame a b d1 d2 → frame a b d2 d3 → frame a b d1 d3.
Proof.
  intros H12 H23. pose proof (frame_len _ _ _ _ H12) as Hl.
  destruct H12 as (P1 & O1 & M1), H23 as (P2 & O2 & M2).
  split; [by rewrite P2|]. split.
  - intros k Hk Hout. rewrite O2; [by apply O1| |exact Hout].
    unfold Seg.inb in *. by rewrite Hl.
  - intros k Hk. destruct (M2 k Hk) as (k' & Hk' & ->). destruct (M1 k' Hk') as (k'' & Hk'' & ->).
    by exists k''.
Qed.

Lemma frame_weaken (a b a' b' : Z) (data data' : list A) :
  0 ≤ a' → b' ≤ len data →
  a' ≤ a → b ≤ b' → frame a b data data' → frame a' b' data data'.
Proof.
  intros Ha' Hb' Ha Hb (P & O & M). split; [done|]. split.
  - intros k Hk Hout. apply O; [done|lia].
  - intros k Hk. destruct (decide (a ≤ k < b)) as [Hin|Hout].
    + destruct (M k Hin) as (k' & Hk' & ->). exists k'. split; [lia|done].
    + exists k. split; [done|]. apply O; [unfold Seg.inb; lia|lia].
Qed.

Lemma frame_Swap (a b : Z) (data : list A) (i j : Z) :
  0 ≤ a → b ≤ len data → a ≤ i < b → a ≤ j < b → frame a b data (Swap data i j).
Proof.
  intros Ha Hb Hi Hj.
  assert (Hi' : inb data i) by (unfold Seg.inb; lia).
  assert (Hj' : inb data j) by (unfold Seg.inb; lia).
  split; [apply Swap_perm|]. split.
  - intros k Hk Hout. rewrite Swap_get by done. repeat case_decide; try lia. done.
  - intros k Hk. assert (inb data k) by (unfold Seg.inb; lia).
    rewrite Swap_get by done. repeat case_decide; subst; eauto.
Qed.

Lemma frame_all_seg (a b : Z) (data data' : list A) (P : A → Prop) :
  frame a b data data' → all_seg a b data P → all_seg a b data' P.
Proof. intros (_ & _ & M) H k Hk. destruct (M k Hk) as (k' & Hk' & ->). by apply H. Qed.


(** ** partition_func and partitionEqual_func

    [partition_func] leaves the pivot at the index it returns, what sorts
    before it to the left and the rest to the right; [partitionEqual_func]
    leaves to the left what does not sort behind the pivot. *)
Lemma partition_loop_spec (a b : Z) (fuel : nat) (data : list A) (i j : Z) :
  (Z.to_nat (j - i + 1) < fuel)%nat →
  0 ≤ a → b ≤ len data → a + 1 ≤ i → j ≤ b - 1 → i ≤ j + 1 →
  (∀ k, a + 1 ≤ k < i → less (get data k) (get data a) = true) →
  (∀ k, j < k < b → less (get data k) (get data a) = false) →
  let r := partition_loop less fuel data a i j in
  frame (a + 1) b data r.1
  ∧ a ≤ r.2 < b
  ∧ (∀ k, a + 1 ≤ k ≤ r.2 → less (get r.1 k) (get data a) = true)
  ∧ (∀ k, r.2 < k < b → less (get r.1 k) (get data a) = false).
Proof.
  revert data i j. induction fuel as [|fuel IH]; intros data i j Hf Ha Hb Hi Hj Hij Hlo Hhi;
    [lia|].
  cbn [partition_loop].
  assert (Hina : inb data a) by (unfold Seg.inb; lia).
  pose proof (scan_up_spec (rounds i j) (λ i0, Less less data i0 a) i j ltac:(unfold rounds; lia))
    as (U1 & U2 & U3 & U4).
  set (i1 := scan_up (rounds i j) (λ i0, Less less data i0 a) i j) in *.
  pose proof (scan_down_spec (rounds i1 j) (λ j0, negb (Less less data j0 a)) i1 j
                ltac:(unfold rounds; lia)) as (D1 & D2 & D3 & D4).
  set (j1 := scan_down (rounds i1 j) (λ j0, negb (Less less data j0 a)) i1 j) in *.
  assert (Hlo1 : ∀ k, a + 1 ≤ k < i1 → less (get data k) (get data a) = true).
  { intros k Hk. destruct (decide (k < i)); [apply Hlo; lia|].
    specialize (U3 k ltac:(lia)). simpl in U3.
    rewrite Less_get in U3; [done|unfold Seg.inb; lia|done]. }
  assert (Hhi1 : ∀ k, j1 < k < b → less (get data k) (get data a) = false).
  { intros k Hk. destruct (decide (j < k)); [apply Hhi; lia|].
    specialize (D3 k ltac:(lia)). simpl in D3. apply negb_true_iff in D3.
    rewrite Less_get in D3; [done|unfold Seg.inb; lia|done]. }
  destruct (j1 <? i1) eqn:Hji.
  - apply Z.ltb_lt in Hji. simpl. split; [apply frame_refl|].
    split; [lia|]. split; [intros k Hk; apply Hlo1; lia|done].
  - apply Z.ltb_ge in Hji.
    assert (Hi1 : inb data i1) by (unfold Seg.inb; lia).
    assert (Hj1 : inb data j1) by (unfold Seg.inb; lia).
    specialize (U4 ltac:(lia)). specialize (D4 ltac:(lia)). simpl in U4, D4.
    apply negb_false_iff in D4. rewrite Less_get in U4, D4 by done.
    assert (Hne : i1 ≠ j1) by (intros E; rewrite E in U4; congruence).
    assert (Hfr : frame (a + 1) b data (Swap data i1 j1)).
    { apply frame_Swap; lia. }
    assert (Hga : get (Swap data i1 j1) a = get data a).
    { rewrite Swap_get by done. repeat case_decide; try lia. done. }
    specialize (IH (Swap data i1 j1) (i1 + 1) (j1 - 1)).
    rewrite Hga in IH. rewrite Swap_len in IH.
    destruct IH as (F & R1 & R2 & R3); try lia.
    + intros k Hk. rewrite Swap_get; [|done|done|unfold Seg.inb; lia].
      repeat case_decide; subst; try lia; [done|]. apply Hlo1. lia.
    + intros k Hk. rewrite Swap_get; [|done|done|unfold Seg.inb; lia].
      repeat case_decide; subst; try lia; [done|]. apply Hhi1. lia.
    + split; [by eapply frame_trans|]. done.
Qed.

Lemma partition_func_spec (data : list A) (a b pivot : Z) :
  0 ≤ a → b ≤ len data → a ≤ pivot < b →
  let r := partition_func less data a b pivot in
  let p := get data pivot in
  frame a b data r.1.1
  ∧ a ≤ r.1.2 < b
  ∧ get r.1.1 r.1.2 = p
  ∧ (∀ k, a ≤ k < r.1.2 → less (get r.1.1 k) p = true)
  ∧ (∀ k, r.1.2 < k < b → less (get r.1.1 k) p = false).
Proof.
  intros Ha Hb Hp r p. subst r. unfold partition_func.
  assert (Hina : inb data a) by (unfold Seg.inb; lia).
  assert (Hinp : inb data pivot) by (unfold Seg.inb; lia).
  set (data1 := Swap data a pivot).
  assert (Hf1 : frame a b data data1) by (apply frame_Swap; lia).
  assert (Hl1 : len data1 = len data) by apply Swap_len.
  assert (Hp1 : get data1 a = p).
  { subst data1. rewrite Swap_get by done. by rewrite decide_True. }
  assert (Hina1 : inb data1 a) by (unfold Seg.inb; lia).
  pose proof (scan_up_spec (rounds (a + 1) (b - 1)) (λ i0, Less less data1 i0 a) (a + 1) (b - 1)
                ltac:(unfold rounds; lia)) as (U1 & U2 & U3 & U4).
  set (i1 := scan_up _ _ (a + 1) (b - 1)) in *.
  pose proof (scan_down_spec (rounds i1 (b - 1)) (λ j0, negb (Less less data1 j0 a)) i1 (b - 1)
                ltac:(unfold rounds; lia)) as (D1 & D2 & D3 & D4).
  set (j1 := scan_down _ _ i1 (b - 1)) in *.
  assert (Hlo1 : ∀ k, a + 1 ≤ k < i1 → less (get data1 k) p = true).
  { intros k Hk. specialize (U3 k ltac:(lia)). simpl in U3.
    rewrite Less_get, Hp1 in U3; [done|unfold Seg.inb; lia|done]. }
  assert (Hhi1 : ∀ k, j1 < k < b → less (get data1 k) p = false).
  { intros k Hk. specialize (D3 k ltac:(lia)). simpl in D3. apply negb_true_iff in D3.
    rewrite Less_get, Hp1 in D3; [done|unfold Seg.inb; lia|done]. }
  (* final swap places the pivot *)
  assert (Hfinal : ∀ data2 j2, frame (a + 1) b data1 data2 → a ≤ j2 < b →
     (∀ k, a + 1 ≤ k ≤ j2 → less (get data2 k) p = true) →
     (∀ k, j2 < k < b → less (get data2 k) p = false) →
     frame a b data (Swap data2 j2 a)
     ∧ get (Swap data2 j2 a) j2 = p
     ∧ (∀ k, a ≤ k < j2 → less (get (Swap data2 j2 a) k) p = true)
     ∧ (∀ k, j2 < k < b → less (get (Swap data2 j2 a) k) p = false)).
  { intros data2 j2 F2 Hj2 L2 H2.
    pose proof (frame_len _ _ _ _ F2) as Hl2.
    assert (Hp2 : get data2 a = p).
    { destruct F2 as (_ & O & _). rewrite O; [done|done|lia]. }
    assert (Ia : inb data2 a) by (unfold Seg.inb; lia).
    assert (Ij : inb data2 j2) by (unfold Seg.inb; lia).
    split.
    { eapply frame_trans; [exact Hf1|]. eapply frame_trans.
      - eapply (frame_weaken (a + 1) b a b); [lia|lia|lia|lia|exact F2].
      - apply frame_Swap; lia. }
    split. { rewrite Swap_get by done. by rewrite decide_True. }
    split.
    - intros k Hk. rewrite Swap_get; [|done|done|unfold Seg.inb; lia].
      repeat case_decide; subst; try lia; apply L2; lia.
    - intros k Hk. rewrite Swap_get; [|done|done|unfold Seg.inb; lia].
      repeat case_decide; subst; try lia; apply H2; lia. }
  destruct (j1 <? i1) eqn:Hji.
  - apply Z.ltb_lt in Hji. cbn [fst snd].
    destruct (Hfinal data1 j1) as (F & G & L & H);
      [apply frame_refl|lia|intros k Hk; apply Hlo1; lia|exact Hhi1|].
    split; [exact F|]. split; [lia|]. split; [exact G|]. split; [exact L|exact H].
  - apply Z.ltb_ge in Hji.
    assert (Hi1 : inb data1 i1) by (unfold Seg.inb; lia).
    assert (Hj1 : inb data1 j1) by (unfold Seg.inb; lia).
    specialize (U4 ltac:(lia)). specialize (D4 ltac:(lia)). simpl in U4, D4.
    apply negb_false_iff in D4. rewrite Less_get, Hp1 in U4, D4 by done.
    assert (Hne : i1 ≠ j1) by (intros E; rewrite E in U4; congruence).
    set (data2 := Swap data1 i1 j1).
    assert (Hga : get data2 a = get data1 a).
    { subst data2. rewrite Swap_get by done. repeat case_decide; try lia. done. }
    pose proof (partition_loop_spec a b (rounds (i1 + 1) (j1 - 1) + 1) data2 (i1 + 1) (j1 - 1))
      as Hloop.
    rewrite Hga, Hp1 in Hloop. subst data2. rewrite Swap_len in Hloop.
    destruct Hloop as (F & R1 & R2 & R3); try (unfold rounds; lia).
    + intros k Hk. rewrite Swap_get; [|done|done|unfold Seg.inb; lia].
      repeat case_decide; subst; try lia; [done|]. apply Hlo1. lia.
    + intros k Hk. rewrite Swap_get; [|done|done|unfold Seg.inb; lia].
      repeat case_decide; subst; try lia; [done|]. apply Hhi1. lia.
    + destruct (partition_loop less _ (Swap data1 i1 j1) a (i1 + 1) (j1 - 1)) as [data3 j3].
      cbn [fst snd] in *.
      destruct (Hfinal data3 j3) as (F' & G & L & H); [|exact R1|exact R2|exact R3|].
      { eapply frame_trans; [|exact F]. apply frame_Swap; lia. }
      split; [exact F'|]. split; [lia|]. split; [exact G|]. split; [exact L|exact H].
Qed.


Lemma partitionEqual_loop_spec (a b : Z) (fuel : nat) (data : list A) (i j : Z) :
  (Z.to_nat (j - i + 1) < fuel)%nat →
  0 ≤ a → b ≤ len data → a + 1 ≤ i → j ≤ b - 1 → i ≤ j + 1 →
  (∀ k, a + 1 ≤ k < i → less (get data a) (get data k) = false) →
  (∀ k, j < k < b → less (get data a) (get data k) = true) →
  let r := partitionEqual_loop less fuel data a i j in
  frame (a + 1) b data r.1
  ∧ a + 1 ≤ r.2 ≤ b
  ∧ (∀ k, a + 1 ≤ k < r.2 → less (get data a) (get r.1 k) = false)
  ∧ (∀ k, r.2 ≤ k < b → less (get data a) (get r.1 k) = true).
Proof.
  revert data i j. induction fuel as [|fuel IH];
    intros data i j Hf Ha Hb Hi Hj Hij Hlo Hhi; [lia|].
  cbn [partitionEqual_loop].
  assert (Hina : inb data a) by (unfold Seg.inb; lia).
  pose proof (scan_up_spec (rounds i j) (λ i0, negb (Less less data a i0)) i j
                ltac:(unfold rounds; lia)) as (U1 & U2 & U3 & U4).
  set (i1 := scan_up (rounds i j) (λ i0, negb (Less less data a i0)) i j) in *.
  pose proof (scan_down_spec (rounds i1 j) (λ j0, Less less data a j0) i1 j
                ltac:(unfold rounds; lia)) as (D1 & D2 & D3 & D4).
  set (j1 := scan_down (rounds i1 j) (λ j0, Less less data a j0) i1 j) in *.
  assert (Hlo1 : ∀ k, a + 1 ≤ k < i1 → less (get data a) (get data k) = false).
  { intros k Hk. destruct (decide (k < i)); [apply Hlo; lia|].
    specialize (U3 k ltac:(lia)). simpl in U3. apply negb_true_iff in U3.
    rewrite Less_get in U3; [done|done|unfold Seg.inb; lia]. }
  assert (Hhi1 : ∀ k, j1 < k < b → less (get data a) (get data k) = true).
  { intros k Hk. destruct (decide (j < k)); [apply Hhi; lia|].
    specialize (D3 k ltac:(lia)). simpl in D3.
    rewrite Less_get in D3; [done|done|unfold Seg.inb; lia]. }
  destruct (j1 <? i1) eqn:Hji.
  - apply Z.ltb_lt in Hji. simpl. split; [apply frame_refl|].
    split; [lia|]. split; [done|]. intros k Hk. apply Hhi1. lia.
  - apply Z.ltb_ge in Hji.
    assert (Hi1 : inb data i1) by (unfold Seg.inb; lia).
    assert (Hj1 : inb data j1) by (unfold Seg.inb; lia).
    specialize (U4 ltac:(lia)). specialize (D4 ltac:(lia)). simpl in U4, D4.
    apply negb_false_iff in U4. rewrite Less_get in U4, D4 by done.
    assert (Hne : i1 ≠ j1) by (intros E; rewrite E in U4; congruence).
    assert (Hfr : frame (a + 1) b data (Swap data i1 j1)).
    { apply frame_Swap; lia. }
    assert (Hga : get (Swap data i1 j1) a = get data a).
    { rewrite Swap_get by done. repeat case_decide; try lia. done. }
    specialize (IH (Swap data i1 j1) (i1 + 1) (j1 - 1)).
    rewrite Hga in IH. rewrite Swap_len in IH.
    destruct IH as (F & R1 & R2 & R3); try lia.
    + intros k Hk. rewrite Swap_get; [|done|done|unfold Seg.inb; lia].
      repeat case_decide; subst; try lia; [done|]. apply Hlo1. lia.
    + intros k Hk. rewrite Swap_get; [|done|done|unfold Seg.inb; lia].
      repeat case_decide; subst; try lia; [done|]. apply Hhi1. lia.
    + split; [by eapply frame_trans|]. done.
Qed.

Lemma partitionEqual_func_spec (data : list A) (a b pivot : Z) :
  0 ≤ a → b ≤ len data → a ≤ pivot < b →
  let r := partitionEqual_func less data a b pivot in
  let p := get data pivot in
  frame a b data r.1
  ∧ a + 1 ≤ r.2 ≤ b
  ∧ (∀ k, a ≤ k < r.2 → less p (get r.1 k) = false)
  ∧ (∀ k, r.2 ≤ k < b → less p (get r.1 k) = true).
Proof.
  intros Ha Hb Hp r p. subst r. unfold partitionEqual_func.
  assert (Hina : inb data a) by (unfold Seg.inb; lia).
  assert (Hinp : inb data pivot) by (unfold Seg.inb; lia).
  set (data1 := Swap data a pivot).
  assert (Hf1 : frame a b data data1) by (apply frame_Swap; lia).
  assert (Hl1 : len data1 = len data) by apply Swap_len.
  assert (Hp1 : get data1 a = p).
  { subst data1. rewrite Swap_get by done. by rewrite decide_True. }
  pose proof (partitionEqual_loop_spec a b (rounds (a + 1) (b - 1) + 1) data1
                (a + 1) (b - 1)) as Hloop.
  rewrite Hp1, Hl1 in Hloop.
  destruct Hloop as (F & R1 & R2 & R3);
    try (unfold rounds; lia); try (intros k Hk; lia).
  split.
  { eapply frame_trans; [exact Hf1|].
    eapply (frame_weaken (a + 1) b a b); [lia|lia|lia|lia|exact F]. }
  split; [exact R1|]. split; [|exact R3].
  intros k Hk. destruct (decide (k = a)) as [->|Hne]; [|apply R2; lia].
  destruct F as (_ & O & _). rewrite O; [|unfold Seg.inb; lia|lia].
  rewrite Hp1. apply (less_irrefl _ Hok).
Qed.

(** ** insertionSort_func *)

Lemma sorted_but_exit (a hi j : Z) (data : list A) :
  a ≤ j < hi →
  sorted_but a hi j data →
  (a < j → less (get data j) (get data (j - 1)) = false) →
  sorted_seg a hi data.
Proof.
  intros Hj [H1 H2] Hex p q Hp Hpq Hq.
  destruct (decide (q = j)) as [->|Hqj].
  - specialize (Hex ltac:(lia)).
    destruct (decide (p = j - 1)) as [->|Hpj]; [exact Hex|].
    apply (ord_le_trans _ (get data (j - 1))); [|exact Hex].
    apply H1; lia.
  - destruct (decide (p = j)) as [->|Hpj].
    + apply ord_lt_le. apply H2. lia.
    + by apply H1.
Qed.

Lemma sorted_but_step (a hi j : Z) (data : list A) :
  0 ≤ a → hi ≤ len data → a < j < hi →
  sorted_but a hi j data →
  less (get data j) (get data (j - 1)) = true →
  sorted_but a hi (j - 1) (Swap data j (j - 1)).
Proof.
  intros Ha Hhi Hj [H1 H2] Hlt.
  assert (Ij : inb data j) by (unfold Seg.inb; lia).
  assert (Ij1 : inb data (j - 1)) by (unfold Seg.inb; lia).
  split.
  - intros p q Hp Hpq Hq Hpj Hqj.
    rewrite !Swap_get; [|done|done|unfold Seg.inb; lia|done|done|unfold Seg.inb; lia].
    repeat case_decide; subst; try lia; apply H1; lia.
  - intros q Hq.
    rewrite !Swap_get; [|done|done|unfold Seg.inb; lia|done|done|unfold Seg.inb; lia].
    repeat case_decide; subst; try lia; [done|]. apply H2. lia.
Qed.

Lemma insertion_inner_seg (a hi : Z) (fuel : nat) (data : list A) (j : Z) :
  (Z.to_nat (j - a) ≤ fuel)%nat →
  0 ≤ a → hi ≤ len data → a ≤ j < hi →
  sorted_but a hi j data →
  let data' := insertion_inner less fuel data a j in
  frame a hi data data' ∧ sorted_seg a hi data'.
Proof.
  revert data j. induction fuel as [|fuel IH]; intros data j Hf Ha Hhi Hj Hs.
  - simpl. split; [apply frame_refl|]. apply (sorted_but_exit a hi j); [done|done|lia].
  - cbn [insertion_inner].
    destruct (a <? j) eqn:Haj; simpl.
    + apply Z.ltb_lt in Haj.
      rewrite Less_get by (unfold Seg.inb; lia).
      destruct (less (get data j) (get data (j - 1))) eqn:Hlt.
      * destruct (IH (Swap data j (j - 1)) (j - 1)) as [F S]; try lia.
        { rewrite Swap_len. lia. }
        { apply sorted_but_step; [lia|lia|lia|done|done]. }
        split; [|exact S]. eapply frame_trans; [|exact F]. apply frame_Swap; lia.
      * split; [apply frame_refl|]. by apply (sorted_but_exit a hi j).
    + apply Z.ltb_ge in Haj. split; [apply frame_refl|].
      apply (sorted_but_exit a hi j); [done|done|lia].
Qed.

Lemma sorted_seg_but (a i : Z) (data : list A) :
  sorted_seg a i data → sorted_but a (i + 1) i data.
Proof. intros H. split; [|intros; lia]. intros p q Hp Hpq Hq Hpi Hqi. apply H; lia. Qed.

Lemma frame_sorted_outside (a b a' b' : Z) (data data' : list A) :
  0 ≤ a → b ≤ len data →
  frame a' b' data data' → (b ≤ a' ∨ b' ≤ a) →
  sorted_seg a b data → sorted_seg a b data'.
Proof.
  intros Ha Hb (_ & O & _) Hd H p q Hp Hpq Hq.
  rewrite !O; [by apply H|unfold Seg.inb; lia|lia|unfold Seg.inb; lia|lia].
Qed.

Lemma insertion_outer_seg (a b : Z) (fuel : nat) (data : list A) (i : Z) :
  (Z.to_nat (b - i) ≤ fuel)%nat →
  0 ≤ a → b ≤ len data → a < i ≤ b →
  sorted_seg a i data →
  let data' := insertion_outer less fuel data a b i in
  frame a b data data' ∧ sorted_seg a b data'.
Proof.
  revert data i. induction fuel as [|fuel IH]; intros data i Hf Ha Hb Hi Hs.
  - simpl. split; [apply frame_refl|]. by replace b with i by lia.
  - cbn [insertion_outer]. destruct (i <? b) eqn:Hib.
    + apply Z.ltb_lt in Hib.
      destruct (insertion_inner_seg a (i + 1) (Z.to_nat (i - a)) data i) as [F S];
        try lia. { by apply sorted_seg_but. }
      pose proof (frame_len _ _ _ _ F) as Hl.
      destruct (IH (insertion_inner less (Z.to_nat (i - a)) data a i) (i + 1)) as [F' S'];
        try lia; [done|].
      split; [|exact S']. eapply frame_trans; [|exact F'].
      eapply (frame_weaken a (i + 1) a b); [lia|lia|lia|lia|exact F].
    + apply Z.ltb_ge in Hib. split; [apply frame_refl|]. by replace b with i by lia.
Qed.

Lemma insertionSort_func_seg (data : list A) (a b : Z) :
  0 ≤ a → a ≤ b → b ≤ len data →
  let data' := insertionSort_func less data a b in
  frame a b data data' ∧ sorted_seg a b data'.
Proof.
  intros Ha Hab Hb. unfold insertionSort_func.
  destruct (decide (a = b)) as [->|Hne].
  - rewrite Z.sub_diag. simpl. split; [apply frame_refl|]. intros p q; lia.
  - apply insertion_outer_seg; try lia. intros p q; lia.
Qed.

(** ** reverseRange_func and breakPatterns_func

    Both only move elements within the segment. *)
Lemma reverse_loop_frame (a b : Z) (fuel : nat) (data : list A) (i j : Z) :
  0 ≤ a → b ≤ len data → a ≤ i → j < b →
  frame a b data (reverse_loop fuel data i j).
Proof.
  revert data i j. induction fuel as [|fuel IH]; intros data i j Ha Hb Hi Hj; simpl.
  - apply frame_refl.
  - destruct (i <? j) eqn:Hij; [|apply frame_refl]. apply Z.ltb_lt in Hij.
    eapply frame_trans; [apply (frame_Swap a b data i j); lia|].
    apply IH; rewrite ?Swap_len; lia.
Qed.

Lemma reverseRange_func_frame (data : list A) (a b : Z) :
  0 ≤ a → b ≤ len data → frame a b data (reverseRange_func data a b).
Proof. intros Ha Hb. unfold reverseRange_func. apply reverse_loop_frame; lia. Qed.

Lemma nextPowerOfTwo_bound (length : Z) :
  0 < length → 0 < nextPowerOfTwo length ≤ 2 * length
  ∧ nextPowerOfTwo length - 1 = Z.ones (bits_Len length)
  ∧ 0 ≤ bits_Len length.
Proof.
  intros Hl. unfold nextPowerOfTwo, bits_Len.
  replace (length =? 0) with false by (symmetry; apply Z.eqb_neq; lia).
  rewrite Z.shiftl_1_l. pose proof (Z.log2_nonneg length).
  pose proof (Z.log2_spec length Hl) as [H1 H2].
  rewrite Z.pow_add_r by lia. change (2 ^ 1) with 2.
  assert (0 < 2 ^ Z.log2 length) by (apply Z.pow_pos_nonneg; lia).
  split; [lia|]. split; [|lia].
  rewrite Z.ones_equiv. rewrite Z.pow_add_r by lia. change (2 ^ 1) with 2. lia.
Qed.

Lemma breakPatterns_loop_frame (a b : Z) (fuel : nat) (data : list A)
    (length idx modulus random i : Z) :
  0 ≤ a → b ≤ len data → length = b - a → 0 < length →
  0 < modulus ≤ 2 * length → (∃ n, 0 ≤ n ∧ modulus - 1 = Z.ones n) →
  0 ≤ i → a ≤ idx - 1 → idx + 1 < b →
  frame a b data (breakPatterns_loop fuel data a length idx modulus random i).
Proof.
  revert data random i. induction fuel as [|fuel IH];
    intros data random i Ha Hb Hlen Hpos Hm Hones Hi Hidx1 Hidx2; simpl.
  - apply frame_refl.
  - destruct (i <? 3) eqn:Hi3; [|apply frame_refl]. apply Z.ltb_lt in Hi3.
    set (r := xorshift_Next random).
    set (o := Z.land r (modulus - 1)).
    assert (Ho : 0 ≤ o < modulus).
    { subst o. destruct Hones as (n & Hn & Hon).
      rewrite Hon, Z.land_ones by done. rewrite Z.ones_equiv in Hon.
      assert (Hmn : modulus = 2 ^ n) by lia. rewrite Hmn.
      apply Z.mod_pos_bound. apply Z.pow_pos_nonneg; lia. }
    set (other := if length <=? o then o - length else o).
    assert (Hother : 0 ≤ other < length).
    { subst other. destruct (length <=? o) eqn:E;
        [apply Z.leb_le in E|apply Z.leb_gt in E]; lia. }
    eapply frame_trans.
    + apply (frame_Swap a b data (idx - 1 + i) (a + other)); lia.
    + apply IH; rewrite ?Swap_len; try done; lia.
Qed.

Lemma breakPatterns_func_frame (data : list A) (a b : Z) :
  0 ≤ a → b ≤ len data → frame a b data (breakPatterns_func data a b).
Proof.
  intros Ha Hb. unfold breakPatterns_func.
  destruct (8 <=? b - a) eqn:H8; [|apply frame_refl]. apply Z.leb_le in H8.
  destruct (nextPowerOfTwo_bound (b - a)) as (Hm & Hones & Hn); [lia|].
  assert (Hq : 2 ≤ Z.quot (b - a) 4 ∧ 4 * Z.quot (b - a) 4 ≤ b - a).
  { rewrite Z.quot_div_nonneg by lia.
    pose proof (Z.div_mod (b - a) 4 ltac:(lia)).
    pose proof (Z.mod_pos_bound (b - a) 4 ltac:(lia)). lia. }
  apply breakPatterns_loop_frame; try lia; try done.
  by exists (bits_Len (b - a)).
Qed.

(** ** choosePivot_func: the pivot is an index of the segment *)

Lemma order2_func_range (data : list A) (x y s : Z) :
  let r := order2_func less data x y s in
  (r.1.1 = x ∧ r.1.2 = y) ∨ (r.1.1 = y ∧ r.1.2 = x).
Proof. unfold order2_func. destruct (Less less data y x); simpl; auto. Qed.

Lemma median_func_range (data : list A) (x y z s : Z) :
  let r := median_func less data x y z s in
  r.1 = x ∨ r.1 = y ∨ r.1 = z.
Proof.
  unfold median_func.
  pose proof (order2_func_range data x y s) as H1.
  destruct (order2_func less data x y s) as [[x1 y1] s1]. simpl in H1.
  pose proof (order2_func_range data y1 z s1) as H2.
  destruct (order2_func less data y1 z s1) as [[y2 z2] s2]. simpl in H2.
  pose proof (order2_func_range data x1 y2 s2) as H3.
  destruct (order2_func less data x1 y2 s2) as [[x3 y3] s3]. simpl in H3.
  simpl. lia.
Qed.

Lemma choosePivot_func_range (data : list A) (a b : Z) :
  12 < b - a →
  a ≤ (choosePivot_func less data a b).1 < b.
Proof.
  intros Hl. unfold choosePivot_func.
  assert (Hq : 3 ≤ Z.quot (b - a) 4 ∧ 4 * Z.quot (b - a) 4 ≤ b - a).
  { rewrite Z.quot_div_nonneg by lia.
    pose proof (Z.div_mod (b - a) 4 ltac:(lia)).
    pose proof (Z.mod_pos_bound (b - a) 4 ltac:(lia)). lia. }
  set (q := Z.quot (b - a) 4) in *.
  replace (8 <=? b - a) with true by (symmetry; apply Z.leb_le; lia).
  assert (Hmain : ∀ i j k s, a + q - 1 ≤ i → a + q - 1 ≤ j → a + q - 1 ≤ k →
            i ≤ a + 3 * q + 1 → j ≤ a + 3 * q + 1 → k ≤ a + 3 * q + 1 →
            a ≤ (median_func less data i j k s).1 < b).
  { intros i j k s. pose proof (median_func_range data i j k s). simpl in *. lia. }
  destruct (50 <=? b - a).
  - unfold medianAdjacent_func.
    pose proof (median_func_range data (a + q * 1 - 1) (a + q * 1) (a + q * 1 + 1) 0) as H1.
    destruct (median_func less data (a + q * 1 - 1) (a + q * 1) (a + q * 1 + 1) 0) as [i s1].
    pose proof (median_func_range data (a + q * 2 - 1) (a + q * 2) (a + q * 2 + 1) s1) as H2.
    destruct (median_func less data (a + q * 2 - 1) (a + q * 2) (a + q * 2 + 1) s1) as [j s2].
    pose proof (median_func_range data (a + q * 3 - 1) (a + q * 3) (a + q * 3 + 1) s2) as H3.
    destruct (median_func less data (a + q * 3 - 1) (a + q * 3) (a + q * 3 + 1) s2) as [k s3].
    simpl in H1, H2, H3.
    specialize (Hmain i j k s3 ltac:(lia) ltac:(lia) ltac:(lia) ltac:(lia) ltac:(lia) ltac:(lia)).
    destruct (median_func less data i j k s3) as [m s4]. simpl in *.
    by repeat case_match.
  - specialize (Hmain (a + q * 1) (a + q * 2) (a + q * 3) 0
                  ltac:(lia) ltac:(lia) ltac:(lia) ltac:(lia) ltac:(lia) ltac:(lia)).
    destruct (median_func less data (a + q * 1) (a + q * 2) (a + q * 3) 0) as [m s4].
    simpl in *. by repeat case_match.
Qed.

(** ** partialInsertionSort_func

    It moves elements within the segment, and where it reports success the
    segment is sorted. *)
Lemma frame_pinv (a b : Z) (data data' : list A) :
  0 ≤ a → b ≤ len data → frame a b data data' → pinv a b data → pinv a b data'.
Proof.
  intros Ha Hb (_ & O & M) H Hpos k Hk.
  rewrite (O (a - 1)); [|unfold Seg.inb; lia|lia].
  destruct (M k Hk) as (k' & Hk' & ->). by apply H.
Qed.

Lemma pinv_sub (a b b' : Z) (data : list A) : b' ≤ b → pinv a b data → pinv a b' data.
Proof. intros Hb H Hpos k Hk. apply H; lia. Qed.

Lemma shift_left_spec (a hi : Z) (fuel : nat) (data : list A) (j : Z) :
  (Z.to_nat (j - a) ≤ fuel)%nat →
  0 ≤ a → hi ≤ len data → a ≤ j < hi →
  sorted_but a hi j data → pinv a hi data →
  let data' := shift_left less fuel data j in
  frame a hi data data' ∧ sorted_seg a hi data'.
Proof.
  revert data j. induction fuel as [|fuel IH]; intros data j Hf Ha Hhi Hj Hs Hp.
  - simpl. split; [apply frame_refl|]. apply (sorted_but_exit a hi j); [done|done|lia].
  - cbn [shift_left].
    destruct (decide (a < j)) as [Haj|Haj].
    + replace (1 <=? j) with true by (symmetry; apply Z.leb_le; lia). simpl.
      rewrite Less_get by (unfold Seg.inb; lia).
      destruct (less (get data j) (get data (j - 1))) eqn:Hlt.
      * assert (F1 : frame a hi data (Swap data j (j - 1))) by (apply frame_Swap; lia).
        destruct (IH (Swap data j (j - 1)) (j - 1)) as [F S]; try lia.
        { rewrite Swap_len. lia. }
        { apply sorted_but_step; [lia|lia|lia|done|done]. }
        { by apply (frame_pinv a hi data). }
        split; [|exact S]. by eapply frame_trans.
      * split; [apply frame_refl|]. by apply (sorted_but_exit a hi j).
    + assert (j = a) as -> by lia.
      assert (Hex : (1 <=? a) && Less less data a (a - 1) = false).
      { destruct (1 <=? a) eqn:H1; [|done]. apply Z.leb_le in H1. simpl.
        rewrite Less_get by (unfold Seg.inb; lia). apply Hp; lia. }
      rewrite Hex. split; [apply frame_refl|].
      apply (sorted_but_exit a hi a); [done|done|lia].
Qed.

Lemma shift_right_frame (i b : Z) (fuel : nat) (data : list A) (j : Z) :
  0 ≤ i → b ≤ len data → i < j →
  frame i b data (shift_right less fuel data b j).
Proof.
  revert data j. induction fuel as [|fuel IH]; intros data j Hi Hb Hj; simpl.
  - apply frame_refl.
  - destruct (j <? b) eqn:Hjb; simpl; [|apply frame_refl]. apply Z.ltb_lt in Hjb.
    destruct (Less less data j (j - 1)); [|apply frame_refl].
    eapply frame_trans; [apply (frame_Swap i b data j (j - 1)); lia|].
    apply IH; rewrite ?Swap_len; lia.
Qed.

Lemma sorted_seg_extend (a i i' : Z) (data : list A) :
  a < i → i ≤ i' →
  sorted_seg a i data →
  (∀ k, i ≤ k < i' → le (get data (k - 1)) (get data k)) →
  sorted_seg a i' data.
Proof.
  intros Ha Hi Hs Hadj.
  assert (H : ∀ n, 0 ≤ n → i + n ≤ i' → sorted_seg a (i + n) data).
  { apply (natlike_ind (λ n, i + n ≤ i' → sorted_seg a (i + n) data)).
    - intros _. by rewrite Z.add_0_r.
    - intros n Hn IH Hle p q Hp Hpq Hq.
      specialize (IH ltac:(lia)).
      destruct (decide (q < i + n)) as [Hlt|Hge]; [by apply IH|].
      assert (q = i + n) as -> by lia.
      destruct (decide (p = i + n - 1)) as [->|Hne]; [apply Hadj; lia|].
      apply (ord_le_trans _ (get data (i + n - 1))); [apply IH; lia|apply Hadj; lia]. }
  replace i' with (i + (i' - i)) by lia. apply H; lia.
Qed.

Lemma partial_steps_spec (a b : Z) (steps : nat) (data : list A) (i : Z) :
  0 ≤ a → b ≤ len data → a < i ≤ b →
  sorted_seg a i data → pinv a b data →
  let r := partial_steps less steps data a b i in
  frame a b data r.1 ∧ (r.2 = true → sorted_seg a b r.1).
Proof.
  revert data i. induction steps as [|steps IH]; intros data i Ha Hb Hi Hs Hp.
  - simpl. split; [apply frame_refl|done].
  - cbn [partial_steps].
    pose proof (scan_up_spec (Z.to_nat (b - i)) (λ i0, negb (Less less data i0 (i0 - 1)))
                  i (b - 1) ltac:(lia)) as (U1 & U2 & U3 & U4).
    set (i' := scan_up _ _ i (b - 1)) in *.
    assert (Hs' : sorted_seg a i' data).
    { apply (sorted_seg_extend a i i'); [lia|lia|done|].
      intros k Hk. specialize (U3 k Hk). simpl in U3. apply negb_true_iff in U3.
      rewrite Less_get in U3 by (unfold Seg.inb; lia). exact U3. }
    destruct (i' =? b) eqn:Hib.
    { apply Z.eqb_eq in Hib. simpl. split; [apply frame_refl|]. intros _. by rewrite <- Hib. }
    apply Z.eqb_neq in Hib.
    destruct (b - a <? 50); [simpl; split; [apply frame_refl|done]|].
    specialize (U4 ltac:(lia)). simpl in U4. apply negb_false_iff in U4.
    rewrite Less_get in U4 by (unfold Seg.inb; lia).
    set (data1 := Swap data i' (i' - 1)).
    assert (F1 : frame a b data data1) by (apply frame_Swap; lia).
    assert (L1 : len data1 = len data) by apply Swap_len.
    assert (Sb : sorted_but a i' (i' - 1) data1).
    { split; [|intros; lia]. intros p q Hp' Hpq Hq Hpn Hqn. subst data1.
      rewrite !Swap_get by (unfold Seg.inb; lia).
      repeat case_decide; subst; try lia. apply Hs'; lia. }
    assert (P1 : pinv a b data1) by (by apply (frame_pinv a b data)).
    set (data2 := if 2 <=? i' - a then shift_left less (Z.to_nat i') data1 (i' - 1)
                  else data1).
    assert (F2 : frame a i' data1 data2 ∧ sorted_seg a i' data2).
    { subst data2. destruct (2 <=? i' - a) eqn:H2.
      - apply Z.leb_le in H2. apply shift_left_spec; try lia; [done|].
        apply (pinv_sub a b); [lia|done].
      - apply Z.leb_gt in H2. split; [apply frame_refl|]. intros p q; lia. }
    destruct F2 as [F2 S2].
    assert (L2 : len data2 = len data1) by (by apply (frame_len a i')).
    set (data3 := if 2 <=? b - i' then shift_right less (Z.to_nat (b - i')) data2 b (i' + 1)
                  else data2).
    assert (F3 : frame i' b data2 data3).
    { subst data3. destruct (2 <=? b - i'); [|apply frame_refl].
      apply shift_right_frame; lia. }
    assert (L3 : len data3 = len data2) by (by apply (frame_len i' b)).
    assert (F13 : frame a b data data3).
    { eapply frame_trans; [exact F1|]. eapply frame_trans.
      - eapply (frame_weaken a i' a b); [lia|lia|lia|lia|exact F2].
      - eapply (frame_weaken i' b a b); [lia|lia|lia|lia|exact F3]. }
    destruct (IH data3 i') as [F R]; try lia.
    { eapply frame_sorted_outside; [| |exact F3| |exact S2]; lia. }
    { by apply (frame_pinv a b data). }
    split; [|exact R]. by eapply frame_trans.
Qed.

Lemma partialInsertionSort_func_spec (data : list A) (a b : Z) :
  0 ≤ a → a < b → b ≤ len data → pinv a b data →
  let r := partialInsertionSort_func less data a b in
  frame a b data r.1 ∧ (r.2 = true → sorted_seg a b r.1).
Proof.
  intros Ha Hab Hb Hp. unfold partialInsertionSort_func.
  apply partial_steps_spec; try lia; [|done]. intros p q; lia.
Qed.

(** ** heapSort_func *)

Lemma siftDown_loop_spec (first lo hi : Z) (fuel : nat) (data : list A) (root : Z) :
  (Z.to_nat (hi - root) ≤ fuel)%nat →
  0 ≤ first → first + hi ≤ len data → 0 ≤ lo → lo ≤ root →
  heap_but first lo hi root data →
  let data' := siftDown_loop less fuel data root hi first in
  frame (first + lo) (first + hi) data data' ∧ heap first lo hi data'.
Proof.
  revert data root. induction fuel as [|fuel IH]; intros data root Hf H0 Hlen Hlo Hroot [H1 H2].
  - simpl. split; [apply frame_refl|].
    intros i c Hi Hc Hic. destruct (decide (i = root)) as [->|Hne]; [|by apply H1].
    unfold Seg.is_child in Hic. lia.
  - cbn [siftDown_loop]. cbv zeta.
    destruct (hi <=? 2 * root + 1) eqn:Hex.
    { apply Z.leb_le in Hex. split; [apply frame_refl|].
      intros i c Hi Hc Hic. destruct (decide (i = root)) as [->|Hne]; [|by apply H1].
      unfold Seg.is_child in Hic. lia. }
    apply Z.leb_gt in Hex.
    set (child := if (2 * root + 1 + 1 <? hi)
                       && Less less data (first + (2 * root + 1)) (first + (2 * root + 1) + 1)
                  then 2 * root + 1 + 1 else 2 * root + 1).
    assert (Hch : is_child root child ∧ child < hi
                  ∧ ∀ c, is_child root c → c < hi → hp first data child c).
    { subst child. destruct (2 * root + 1 + 1 <? hi) eqn:H2c; simpl.
      - apply Z.ltb_lt in H2c. rewrite Less_get by (unfold Seg.inb; lia).
        destruct (less _ _) eqn:Hl.
        + split; [right; lia|]. split; [lia|]. intros c [->| ->] Hc; unfold Seg.hp.
          * apply ord_lt_le. by replace (first + (2 * root + 1 + 1))
              with (first + (2 * root + 1) + 1) by lia.
          * replace (2 * root + 2) with (2 * root + 1 + 1) by lia. apply ord_le_refl.
        + split; [left; lia|]. split; [lia|]. intros c [->| ->] Hc; unfold Seg.hp.
          * apply ord_le_refl.
          * replace (first + (2 * root + 2)) with (first + (2 * root + 1) + 1) by lia.
            exact Hl.
      - apply Z.ltb_ge in H2c. split; [left; lia|]. split; [lia|].
        intros c [->| ->] Hc; [apply ord_le_refl|lia]. }
    clearbody child. destruct Hch as (Hc1 & Hc2 & Hc3).
    assert (Hcr : root < child) by (unfold Seg.is_child in Hc1; lia).
    rewrite Less_get by (unfold Seg.inb; lia).
    destruct (less (get data (first + root)) (get data (first + child))) eqn:Hl; simpl.
    + assert (Ir : inb data (first + root)) by (unfold Seg.inb; lia).
      assert (Ic : inb data (first + child)) by (unfold Seg.inb; lia).
      destruct (IH (Swap data (first + root) (first + child)) child) as [F Hh]; try lia.
      { rewrite Swap_len. lia. }
      { split.
        - intros i c Hi Hc Hic Hne. unfold Seg.hp.
          assert (0 ≤ i ∧ i < c) as [? ?] by (unfold Seg.is_child in Hic; lia).
          rewrite !Swap_get by (unfold Seg.inb; lia).
          destruct (decide (i = root)) as [->|Hir].
          + rewrite (decide_True (P := first + root = first + root)) by lia.
            rewrite (decide_False (P := first + c = first + root)) by lia.
            destruct (decide (c = child)) as [->|Hcc].
            * rewrite (decide_True (P := first + child = first + child)) by lia.
              by apply ord_lt_le.
            * rewrite (decide_False (P := first + c = first + child)) by lia.
              by apply Hc3.
          + rewrite (decide_False (P := first + i = first + root)) by lia.
            rewrite (decide_False (P := first + i = first + child)) by lia.
            destruct (decide (c = root)) as [->|Hcr'].
            * rewrite (decide_True (P := first + root = first + root)) by lia.
              by apply (H2 i child).
            * rewrite (decide_False (P := first + c = first + root)) by lia.
              destruct (decide (c = child)) as [->|Hcc].
              { unfold Seg.is_child in Hic, Hc1. lia. }
              rewrite (decide_False (P := first + c = first + child)) by lia.
              by apply H1.
        - intros p c Hp Hpc Hcc Hc. unfold Seg.hp.
          assert (p = root) as -> by (unfold Seg.is_child in Hpc, Hc1; lia).
          assert (child < c) by (unfold Seg.is_child in Hcc; lia).
          rewrite !Swap_get by (unfold Seg.inb; lia).
          rewrite (decide_False (P := first + c = first + root)) by lia.
          rewrite (decide_False (P := first + c = first + child)) by lia.
          rewrite (decide_True (P := first + root = first + root)) by lia.
          apply (H1 child c); [lia|lia|done|lia]. }
      split; [|exact Hh]. eapply frame_trans; [|exact F].
      apply frame_Swap; lia.
    + split; [apply frame_refl|].
      intros i c Hi Hc Hic. destruct (decide (i = root)) as [->|Hne]; [|by apply H1].
      unfold Seg.hp. apply (ord_le_trans _ (get data (first + child))); [by apply Hc3|exact Hl].
Qed.

Lemma siftDown_func_spec (first hi : Z) (data : list A) (lo : Z) :
  0 ≤ first → first + hi ≤ len data → 0 ≤ lo →
  heap first (lo + 1) hi data →
  let data' := siftDown_func less data lo hi first in
  frame (first + lo) (first + hi) data data' ∧ heap first lo hi data'.
Proof.
  intros H0 Hlen Hlo Hh. unfold siftDown_func.
  apply siftDown_loop_spec; try lia. split.
  - intros i c Hi Hc Hic Hne. apply Hh; [lia|done|done].
  - intros p c Hp Hpc. unfold Seg.is_child in Hpc. lia.
Qed.

Lemma heap_build_spec (first hi : Z) (fuel : nat) (data : list A) (i : Z) :
  (Z.to_nat (i + 1) ≤ fuel)%nat →
  0 ≤ first → first + hi ≤ len data → 0 ≤ hi → -1 ≤ i →
  heap first (i + 1) hi data →
  let data' := heap_build less fuel data i hi first in
  frame first (first + hi) data data' ∧ heap first 0 hi data'.
Proof.
  revert data i. induction fuel as [|fuel IH]; intros data i Hf H0 Hlen Hhi Hi Hh.
  - simpl. split; [apply frame_refl|]. by replace 0 with (i + 1) by lia.
  - cbn [heap_build]. destruct (0 <=? i) eqn:Hi0.
    + apply Z.leb_le in Hi0.
      destruct (siftDown_func_spec first hi data i) as [F1 H1]; try lia; [done|].
      assert (L1 : len (siftDown_func less data i hi first) = len data)
        by (by apply (frame_len (first + i) (first + hi))).
      destruct (IH (siftDown_func less data i hi first) (i - 1)) as [F2 H2]; try lia.
      { by replace (i - 1 + 1) with i by lia. }
      split; [|exact H2]. eapply frame_trans; [|exact F2].
      apply (frame_weaken (first + i) (first + hi)); [lia|lia|lia|lia|exact F1].
    + apply Z.leb_gt in Hi0. split; [apply frame_refl|].
      by replace 0 with (i + 1) by lia.
Qed.

Lemma heap_max (first hi : Z) (data : list A) :
  heap first 0 hi data →
  ∀ c, 0 ≤ c → c < hi → le (get data (first + c)) (get data first).
Proof.
  intros Hh c Hc. generalize Hc. revert c Hc.
  apply (Z_lt_induction
           (λ c, 0 ≤ c → c < hi → le (get data (first + c)) (get data first))).
  intros c IH Hc Hlt.
  destruct (decide (c = 0)) as [->|Hc0].
  - replace (first + 0) with first by lia. apply ord_le_refl.
  - pose proof (Z.div_mod (c - 1) 2 ltac:(lia)) as Hd.
    pose proof (Z.mod_pos_bound (c - 1) 2 ltac:(lia)) as Hm.
    set (p := (c - 1) / 2) in *.
    assert (Hp : 0 ≤ p < c) by lia.
    apply (ord_le_trans _ (get data (first + p))).
    + apply (Hh p c); [lia|done|unfold Seg.is_child; lia].
    + apply IH; lia.
Qed.

Lemma heap_pop_spec (first hi : Z) (fuel : nat) (data : list A) (i : Z) :
  (Z.to_nat (i + 1) ≤ fuel)%nat →
  0 ≤ first → first + hi ≤ len data → -1 ≤ i < hi →
  heap first 0 (i + 1) data →
  sorted_seg (first + (i + 1)) (first + hi) data →
  (∀ k c, 0 ≤ k ≤ i → i < c < hi → le (get data (first + k)) (get data (first + c))) →
  let data' := heap_pop less fuel data i 0 first in
  frame first (first + hi) data data' ∧ sorted_seg first (first + hi) data'.
Proof.
  revert data i. induction fuel as [|fuel IH]; intros data i Hf H0 Hlen Hi Hh Hs Hx.
  - simpl. split; [apply frame_refl|]. by replace (first + (i + 1)) with first in Hs by lia.
  - cbn [heap_pop]. destruct (0 <=? i) eqn:Hi0.
    2:{ apply Z.leb_gt in Hi0. split; [apply frame_refl|].
        by replace (first + (i + 1)) with first in Hs by lia. }
    apply Z.leb_le in Hi0.
    pose proof (heap_max first (i + 1) data Hh) as Hmax.
    set (data1 := Swap data first (first + i)).
    assert (If : inb data first) by (unfold Seg.inb; lia).
    assert (Ii : inb data (first + i)) by (unfold Seg.inb; lia).
    assert (L1 : len data1 = len data) by apply Swap_len.
    assert (G1 : ∀ k, 0 ≤ k < hi →
              get data1 (first + k) =
                if decide (k = 0) then get data (first + i)
                else if decide (k = i) then get data first else get data (first + k)).
    { intros k Hk. subst data1. rewrite Swap_get by (done || unfold Seg.inb; lia).
      destruct (decide (k = 0)) as [->|Hk0].
      - by rewrite decide_True by lia.
      - rewrite decide_False by lia.
        destruct (decide (k = i)) as [->|Hki].
        + by rewrite decide_True by lia.
        + by rewrite decide_False by lia. }
    assert (Hh1 : heap first (0 + 1) i data1).
    { intros j c Hj Hc Hjc. unfold Seg.hp.
      assert (j < c) by (unfold Seg.is_child in Hjc; lia).
      rewrite !G1 by lia. rewrite !decide_False by lia.
      apply (Hh j c); [lia|lia|done]. }
    destruct (siftDown_func_spec first i data1 0) as [F2 H2]; try lia; [done|].
    set (data2 := siftDown_func less data1 0 i first) in *.
    replace (first + 0) with first in F2 by lia.
    assert (L2 : len data2 = len data1) by (by apply (frame_len first (first + i))).
    assert (O2 : ∀ c, i ≤ c < hi → get data2 (first + c) = get data1 (first + c)).
    { intros c Hc. destruct F2 as (_ & O & _). apply O; [unfold Seg.inb; lia|lia]. }
    assert (M2 : ∀ k, 0 ≤ k < i → ∃ k', 0 ≤ k' ≤ i ∧ get data2 (first + k) = get data (first + k')).
    { intros k Hk. destruct F2 as (_ & _ & M).
      destruct (M (first + k) ltac:(lia)) as (k1 & Hk1 & ->).
      replace k1 with (first + (k1 - first)) by lia.
      rewrite G1 by lia.
      destruct (decide (k1 - first = 0)); [exists i; split; [lia|done]|].
      rewrite decide_False by lia. exists (k1 - first). split; [lia|done]. }
    assert (G1i : get data1 (first + i) = get data first).
    { rewrite G1 by lia. destruct (decide (i = 0)) as [->|Hne].
      - by replace (first + 0) with first by lia.
      - by rewrite decide_True by lia. }
    assert (G1o : ∀ c, i < c < hi → get data1 (first + c) = get data (first + c)).
    { intros c Hc. rewrite G1 by lia. by rewrite !decide_False by lia. }
    destruct (IH data2 (i - 1)) as [F3 S3]; try lia.
    { by replace (i - 1 + 1) with i by lia. }
    { replace (first + (i - 1 + 1)) with (first + i) by lia.
      intros p q Hp Hpq Hq.
      replace p with (first + (p - first)) by lia.
      replace q with (first + (q - first)) by lia.
      rewrite !O2 by lia. rewrite (G1o (q - first)) by lia.
      destruct (decide (p - first = i)) as [->|Hpi].
      - rewrite G1i. replace first with (first + 0) at 1 by lia. apply Hx; lia.
      - rewrite G1o by lia. apply Hs; lia. }
    { intros k c Hk Hc. destruct (M2 k ltac:(lia)) as (k' & Hk' & ->).
      rewrite O2 by lia.
      destruct (decide (c = i)) as [->|Hci].
      - rewrite G1i. apply Hmax; lia.
      - rewrite G1o by lia. apply Hx; lia. }
    split; [|exact S3].
    apply (frame_trans _ _ _ data1); [apply frame_Swap; lia|].
    apply (frame_trans _ _ _ data2); [|exact F3].
    apply (frame_weaken first (first + i)); [lia|lia|lia|lia|exact F2].
Qed.

Lemma heapSort_func_spec (data : list A) (a b : Z) :
  0 ≤ a → a < b → b ≤ len data →
  let data' := heapSort_func less data a b in
  frame a b data data' ∧ sorted_seg a b data'.
Proof.
  intros Ha Hab Hb. unfold heapSort_func. cbv zeta.
  assert (Hq : 0 ≤ Z.quot (b - a - 1) 2 ∧ b - a - 2 ≤ 2 * Z.quot (b - a - 1) 2
               ∧ Z.quot (b - a - 1) 2 ≤ b - a - 1).
  { rewrite Z.quot_div_nonneg by lia.
    pose proof (Z.div_mod (b - a - 1) 2 ltac:(lia)).
    pose proof (Z.mod_pos_bound (b - a - 1) 2 ltac:(lia)). lia. }
  set (q := Z.quot (b - a - 1) 2) in *.
  destruct (heap_build_spec a (b - a) (Z.to_nat (b - a) + 1) data q) as [F1 H1]; try lia.
  { intros i c Hi Hc Hic. unfold Seg.is_child in Hic. lia. }
  set (data1 := heap_build less _ data q (b - a) a) in *.
  replace (a + (b - a)) with b in F1 by lia.
  assert (L1 : len data1 = len data) by (by apply (frame_len a b)).
  destruct (heap_pop_spec a (b - a) (Z.to_nat (b - a) + 1) data1 (b - a - 1)) as [F2 S2];
    try lia.
  { by replace (b - a - 1 + 1) with (b - a) by lia. }
  { intros p q' ?; lia. }
  replace (a + (b - a)) with b in F2, S2 by lia.
  split; [|exact S2]. by eapply frame_trans.
Qed.

(** ** pdqsort_func *)

Lemma frame_all_seg_outside (a b a' b' : Z) (data data' : list A) (P : A → Prop) :
  0 ≤ a → b ≤ len data →
  frame a' b' data data' → (b ≤ a' ∨ b' ≤ a) →
  all_seg a b data P → all_seg a b data' P.
Proof.
  intros Ha Hb (_ & O & _) Hd H k Hk.
  rewrite O; [by apply H|unfold Seg.inb; lia|lia].
Qed.

Lemma sorted_combine (a mid b : Z) (data : list A) (p : A) :
  a ≤ mid < b →
  sorted_seg a mid data → sorted_seg (mid + 1) b data →
  all_seg a mid data (λ x, le x p) → get data mid = p →
  all_seg (mid + 1) b data (λ x, le p x) →
  sorted_seg a b data.
Proof.
  intros Hm SL SR AL Hp AR i j Hi Hij Hj.
  destruct (decide (j < mid)) as [Hjm|Hjm]; [by apply SL|].
  destruct (decide (mid < i)) as [Him|Him]; [apply SR; lia|].
  assert (Hip : le (get data i) p).
  { destruct (decide (i = mid)) as [->|Hne]; [rewrite Hp; apply ord_le_refl|apply AL; lia]. }
  assert (Hpj : le p (get data j)).
  { destruct (decide (j = mid)) as [->|Hne]; [rewrite Hp; apply ord_le_refl|apply AR; lia]. }
  by apply (ord_le_trans _ p).
Qed.

(** With fuel for every element of the segment, [pdqsort_func] sorts the
    segment [a, b) and leaves the rest of the slice alone.  Every round
    either finishes (insertion sort, heap sort, a successful partial
    insertion sort) or continues on strictly shorter segments. *)
Lemma pdqsort_loop_spec (fuel : nat) (data : list A) (a b limit : Z)
    (wasBalanced wasPartitioned : bool) :
  (Z.to_nat (b - a) < fuel)%nat →
  0 ≤ a → a ≤ b → b ≤ len data → pinv a b data →
  let data' := pdqsort_loop less fuel data a b limit wasBalanced wasPartitioned in
  frame a b data data' ∧ sorted_seg a b data'.
Proof.
  revert data a b limit wasBalanced wasPartitioned.
  induction fuel as [|fuel IH]; intros data a b limit wb wp Hf Ha Hab Hb Hp; [lia|].
  cbn [pdqsort_loop]. cbv zeta.
  destruct (b - a <=? 12) eqn:H12.
  { apply insertionSort_func_seg; lia. }
  apply Z.leb_gt in H12.
  destruct (limit =? 0).
  { apply heapSort_func_spec; lia. }
  (* breakPatterns *)
  set (s3 := if negb wb then (breakPatterns_func data a b, limit - 1) else (data, limit)).
  assert (F3 : frame a b data s3.1).
  { subst s3. destruct (negb wb); simpl; [apply breakPatterns_func_frame; lia|apply frame_refl]. }
  clearbody s3. destruct s3 as [data1 limit1]. simpl in F3.
  assert (L1 : len data1 = len data) by (by apply (frame_len a b)).
  (* choosePivot *)
  pose proof (choosePivot_func_range data1 a b ltac:(lia)) as Hpv.
  destruct (choosePivot_func less data1 a b) as [pivot hint]. simpl in Hpv.
  (* reverseRange *)
  set (s5 := if is_decreasing hint
             then (reverseRange_func data1 a b, b - 1 - (pivot - a), increasingHint)
             else (data1, pivot, hint)).
  assert (F5 : frame a b data1 s5.1.1 ∧ a ≤ s5.1.2 < b).
  { subst s5. destruct (is_decreasing hint); simpl.
    - split; [apply reverseRange_func_frame; lia|lia].
    - split; [apply frame_refl|lia]. }
  clearbody s5. destruct s5 as [[data2 pivot2] hint2]. simpl in F5. destruct F5 as [F5 Hpv2].
  assert (L2 : len data2 = len data1) by (by apply (frame_len a b)).
  assert (F02 : frame a b data data2) by (by apply (frame_trans _ _ _ data1)).
  assert (P2 : pinv a b data2) by (apply (frame_pinv a b data); [lia|lia|done|done]).
  (* partialInsertionSort *)
  set (s6 := if wb && wp && is_increasing hint2
             then partialInsertionSort_func less data2 a b else (data2, false)).
  assert (F6 : frame a b data2 s6.1 ∧ (s6.2 = true → sorted_seg a b s6.1)).
  { subst s6. destruct (wb && wp && is_increasing hint2).
    - apply partialInsertionSort_func_spec; [lia|lia|lia|done].
    - simpl. split; [apply frame_refl|done]. }
  clearbody s6. destruct s6 as [data3 done]. simpl in F6. destruct F6 as [F6 S6].
  assert (L3 : len data3 = len data2) by (by apply (frame_len a b)).
  assert (F03 : frame a b data data3) by (by apply (frame_trans _ _ _ data2)).
  assert (P3 : pinv a b data3) by (apply (frame_pinv a b data); [lia|lia|done|done]).
  destruct done.
  { split; [done|by apply S6]. }
  clear S6.
  destruct ((0 <? a) && negb (Less less data3 (a - 1) pivot2)) eqn:Heq.
  - (* partitionEqual *)
    apply andb_true_iff in Heq as [Ha0 Hnl]. apply Z.ltb_lt in Ha0.
    apply negb_true_iff in Hnl. rewrite Less_get in Hnl by (unfold Seg.inb; lia).
    pose proof (partitionEqual_func_spec data3 a b pivot2 ltac:(lia) ltac:(lia) ltac:(lia))
      as (F4 & Hmid & HL & HR).
    destruct (partitionEqual_func less data3 a b pivot2) as [data4 mid]. simpl in F4, Hmid, HL, HR.
    set (p := get data3 pivot2) in *.
    assert (L4 : len data4 = len data3) by (by apply (frame_len a b)).
    assert (Hge : ∀ k, a ≤ k < b → le p (get data4 k)).
    { intros k Hk. destruct F4 as (_ & _ & M). destruct (M k Hk) as (k' & Hk' & ->).
      apply (ord_le_trans _ (get data3 (a - 1))); [exact Hnl|by apply P3]. }
    destruct (IH data4 mid b limit1 wb wp) as [F S]; try lia.
    { intros _ k Hk. apply (ord_le_trans _ p); [apply HL; lia|apply ord_lt_le, HR; lia]. }
    set (data5 := pdqsort_loop less fuel data4 mid b limit1 wb wp) in *.
    split.
    { apply (frame_trans _ _ _ data3); [done|]. apply (frame_trans _ _ _ data4); [done|].
      apply (frame_weaken mid b); [lia|lia|lia|lia|done]. }
    intros i j Hi Hij Hj.
    destruct F as (_ & O & M).
    destruct (decide (mid ≤ i)) as [Him|Him]; [apply S; lia|].
    rewrite (O i) by (unfold Seg.inb; lia).
    destruct (decide (mid ≤ j)) as [Hjm|Hjm].
    + destruct (M j ltac:(lia)) as (j' & Hj' & ->).
      apply (ord_le_trans _ p); [apply HL; lia|apply ord_lt_le, HR; lia].
    + rewrite (O j) by (unfold Seg.inb; lia).
      apply (ord_le_trans _ p); [apply HL; lia|apply Hge; lia].
  - (* partition *)
    clear Heq.
    pose proof (partition_func_spec data3 a b pivot2 ltac:(lia) ltac:(lia) ltac:(lia))
      as (F4 & Hmid & Hpm & HL & HR).
    destruct (partition_func less data3 a b pivot2) as [[data4 mid] ap].
    simpl in F4, Hmid, Hpm, HL, HR.
    set (p := get data3 pivot2) in *.
    assert (L4 : len data4 = len data3) by (by apply (frame_len a b)).
    assert (F04 : frame a b data data4) by (by apply (frame_trans _ _ _ data3)).
    assert (P4 : pinv a b data4) by (apply (frame_pinv a b data); [lia|lia|done|done]).
    assert (AL : all_seg a mid data4 (λ x, le x p)).
    { intros k Hk. apply ord_lt_le, HL; lia. }
    assert (AR : all_seg (mid + 1) b data4 (λ x, le p x)).
    { intros k Hk. apply HR; lia. }
    destruct (mid - a <? b - mid).
    + destruct (IH data4 a mid limit1 true true) as [FL SL]; try lia.
      { apply (pinv_sub a b); [lia|done]. }
      set (dataL := pdqsort_loop less fuel data4 a mid limit1 true true) in *.
      assert (LL : len dataL = len data4) by (by apply (frame_len a mid)).
      assert (ALL : all_seg a mid dataL (λ x, le x p)) by (by apply (frame_all_seg a mid data4)).
      assert (ARL : all_seg (mid + 1) b dataL (λ x, le p x)).
      { apply (frame_all_seg_outside _ _ a mid data4); [lia|lia|done|lia|done]. }
      assert (HpL : get dataL mid = p).
      { destruct FL as (_ & O & _). rewrite O; [done|unfold Seg.inb; lia|lia]. }
      destruct (IH dataL (mid + 1) b limit1 (Z.quot (b - a) 8 <=? mid - a) ap) as [FR SR];
        try lia.
      { intros _ k Hk. replace (mid + 1 - 1) with mid by lia. rewrite HpL. by apply ARL. }
      set (dataR := pdqsort_loop less fuel dataL (mid + 1) b limit1 _ ap) in *.
      split.
      { apply (frame_trans _ _ _ data4); [done|]. apply (frame_trans _ _ _ dataL).
        - apply (frame_weaken a mid); [lia|lia|lia|lia|done].
        - apply (frame_weaken (mid + 1) b); [lia|lia|lia|lia|done]. }
      apply (sorted_combine a mid b dataR p); [lia| |done| | |].
      * apply (frame_sorted_outside a mid (mid + 1) b dataL); [lia|lia|done|lia|done].
      * apply (frame_all_seg_outside _ _ (mid + 1) b dataL); [lia|lia|done|lia|done].
      * destruct FR as (_ & O & _). rewrite O; [done|unfold Seg.inb; lia|lia].
      * by apply (frame_all_seg (mid + 1) b dataL).
    + destruct (IH data4 (mid + 1) b limit1 true true) as [FR SR]; try lia.
      { intros _ k Hk. replace (mid + 1 - 1) with mid by lia. rewrite Hpm. by apply AR. }
      set (dataR := pdqsort_loop less fuel data4 (mid + 1) b limit1 true true) in *.
      assert (LR : len dataR = len data4) by (by apply (frame_len (mid + 1) b)).
      assert (ARR : all_seg (mid + 1) b dataR (λ x, le p x))
        by (by apply (frame_all_seg (mid + 1) b data4)).
      assert (ALR : all_seg a mid dataR (λ x, le x p)).
      { apply (frame_all_seg_outside _ _ (mid + 1) b data4); [lia|lia|done|lia|done]. }
      assert (HpR : get dataR mid = p).
      { destruct FR as (_ & O & _). rewrite O; [done|unfold Seg.inb; lia|lia]. }
      destruct (IH dataR a mid limit1 (Z.quot (b - a) 8 <=? b - mid) ap) as [FL SL];
        try lia.
      { apply (pinv_sub a b); [lia|].
        apply (frame_pinv a b data4); [lia|lia| |done].
        apply (frame_weaken (mid + 1) b); [lia|lia|lia|lia|done]. }
      set (dataL := pdqsort_loop less fuel dataR a mid limit1 _ ap) in *.
      split.
      { apply (frame_trans _ _ _ data4); [done|]. apply (frame_trans _ _ _ dataR).
        - apply (frame_weaken (mid + 1) b); [lia|lia|lia|lia|done].
        - apply (frame_weaken a mid); [lia|lia|lia|lia|done]. }
      apply (sorted_combine a mid b dataL p); [lia|done| | | |].
      * apply (frame_sorted_outside (mid + 1) b a mid dataR); [lia|lia|done|lia|done].
      * by apply (frame_all_seg a mid dataR).
      * destruct FL as (_ & O & _). rewrite O; [done|unfold Seg.inb; lia|lia].
      * apply (frame_all_seg_outside _ _ a mid dataR); [lia|lia|done|lia|done].
Qed.

End PdqSort.


(** ** sort.Slice *)

Lemma sorted_seg_sorted_by {A} (less : A → A → bool) (d : A) (l : list A) :
  Seg.sorted_seg less d 0 (len l) l → sorted_by less l.
Proof.
  intros H i j x y Hij Hx Hy.
  pose proof (lookup_lt_Some _ _ _ Hy) as Hj.
  specialize (H (Z.of_nat i) (Z.of_nat j) ltac:(lia) ltac:(lia) ltac:(unfold len; lia)).
  unfold Seg.le, Seg.get in H. rewrite !Nat2Z.id, Hx, Hy in H. exact H.
Qed.

Lemma Slice_spec {A} (less : A → A → bool) (l : list A) :
  less_ok less → GoSort.Slice less l ≡ₚ l ∧ sorted_by less (GoSort.Slice less l).
Proof.
  intros Hok. destruct l as [|d l'] eqn:El; [split; [done|]; by intros i j x y _ Hx|].
  rewrite <- El. clear El l'.
  unfold GoSort.Slice, GoSort.pdqsort_func. cbv zeta.
  destruct (pdqsort_loop_spec less d Hok (Z.to_nat (len l - 0) + 1) l 0 (len l)
              (GoSort.bits_Len (len l)) true true) as [F S]; try (unfold len; lia).
  { intros H; lia. }
  split; [apply F|].
  apply (sorted_seg_sorted_by less d).
  by rewrite (frame_len d _ _ _ _ F).
Qed.

(** The [sort.Slice] of the Go distribution does what its documentation
    says: for every [less] that is a transitive ordering, the result holds
    the elements of the slice, in sorted order. *)
Theorem go_sort_Slice_contract : SliceContract go_sort_Slice.
Proof. intros A less l Hok. by apply Slice_spec. Qed.

Lemma StronglySorted_sorted_by {A} (less : A → A → bool) (l : list A) :
  StronglySorted (λ x y, less y x = false) l → sorted_by less l.
Proof.
  intros Hs. induction Hs as [|z l Hs IH Hz]; intros i j x y Hij Hi Hj.
  - by rewrite lookup_nil in Hi.
  - destruct j as [|j]; [lia|]. simpl in Hj. destruct i as [|i]; simpl in Hi.
    + injection Hi as ->. rewrite Forall_forall in Hz. apply Hz.
      by eapply list_elem_of_lookup_2.
    + apply (IH i j); [lia|done..].
Qed.

(* ===================================================================== *)
(** * The ranking engine: order *)
(* ===================================================================== *)

Lemma score_less_ok (e : LearningEngine) :
  int_lengths (dataCollector e) → less_ok (score_less e).
Proof.
  intros Hlen. unfold score_less, fgt. split.
  - intros x. apply ltb_irrefl.
  - intros x y z Hxy Hyz. by apply (ltb_trans _ _ _ Hyz Hxy).
  - intros x y z Hxy Hyz.
    apply (ltb_incomp _ _ _ (score_key e z Hlen) (score_key e y Hlen)
             (score_key e x Hlen)); done.
Qed.

Lemma getSeverityScore_other (s : string) :
  s ≠ "critical" → s ≠ "high" → s ≠ "medium" → s ≠ "low" →
  getSeverityScore s = 0.
Proof.
  intros H1 H2 H3 H4. unfold getSeverityScore.
  by repeat case_bool_decide.
Qed.

(** C1, as the code has it.  With learning enabled, [SortIssues] returns the
    findings it was given, rearranged so that the score

      severityScore(finding) * (0.5 + 0.5 * acceptanceRate(finding.rule))

    never increases along the slice, where [severityScore] is 4 for
    critical, 3 for high, 2 for medium, 1 for low and 0 for anything else.
    It does so through [sort.Slice], of which only the documented behaviour
    is used: the order in which findings of equal score come out is whatever
    that function makes it. *)
Theorem SortIssues_descending (sort_Slice : SliceSort) (e : LearningEngine)
    (issues : list Issue) :
  SliceContract sort_Slice →
  EnableLearning (le_config e) = true →
  int_lengths (dataCollector e) →
  let sorted := SortIssues sort_Slice e issues in
  sorted ≡ₚ issues
  ∧ (∀ (i j : nat) x y, (i < j)%nat →
       sorted !! i = Some x → sorted !! j = Some y →
       fge (score e x) (score e y) = true)
  ∧ (∀ issue,
       score e issue
       = (float64 (getSeverityScore (Severity issue))
          * (0.5 + 0.5 * GetAcceptanceRate (dataCollector e) (Rule issue)))%float)
  ∧ getSeverityScore "critical" = 4 ∧ getSeverityScore "high" = 3
  ∧ getSeverityScore "medium" = 2 ∧ getSeverityScore "low" = 1
  ∧ (∀ s, s ≠ "critical" → s ≠ "high" → s ≠ "medium" → s ≠ "low" →
       getSeverityScore s = 0).
Proof.
  intros Hsort He Hlen sorted.
  assert (Hs : sorted ≡ₚ issues ∧ sorted_by (score_less e) sorted).
  { subst sorted. unfold SortIssues. rewrite He. simpl.
    destruct (len issues <=? 1) eqn:Hle.
    - split; [done|]. apply Z.leb_le in Hle. intros i j x y Hij Hi Hj.
      apply lookup_lt_Some in Hj. unfold len in Hle. lia.
    - apply Hsort. by apply score_less_ok. }
  destruct Hs as [Hperm Hsorted].
  split; [exact Hperm|]. split.
  { intros i j x y Hij Hi Hj. specialize (Hsorted i j x y Hij Hi Hj).
    unfold score_less, fgt in Hsorted. unfold fge.
    apply ltb_false_leb; [by apply score_key..|done]. }
  split; [done|]. repeat split; try done. apply getSeverityScore_other.
Qed.

Lemma SortIssues_descending_witness :
  SortIssues go_sort_Slice ex_engine [ex_issue; cx_high; cx_low 0]
  ≡ₚ [ex_issue; cx_high; cx_low 0].
Proof.
  exact (proj1 (SortIssues_descending go_sort_Slice ex_engine
                  [ex_issue; cx_high; cx_low 0] go_sort_Slice_contract
                  eq_refl ex_accepted_lengths)).
Defined.

(** C1, the part that fails.  On thirteen findings, twelve of one score
    followed by one of a greater score, [SortIssues] over the [sort.Slice] of
    the Go distribution brings the last finding to the front, as it must, and
    leaves the twelve others in an order that is not the one they came in:
    the seventh now precedes the first. *)
Lemma SortIssues_not_stable :
  SortIssues go_sort_Slice ex_engine0 cx_issues
  = cx_high :: (cx_low <$> [6; 2; 3; 4; 5; 0; 7; 8; 9; 10; 11; 1])
  ∧ sorted_by (score_less ex_engine0)
              (SortIssues go_sort_Slice ex_engine0 cx_issues)
  ∧ PrimFloat.eqb (score ex_engine0 (cx_low 0)) (score ex_engine0 (cx_low 6))
    = true
  ∧ ¬ ties_keep_order ex_engine0 cx_issues
        (SortIssues go_sort_Slice ex_engine0 cx_issues).
Proof.
  assert (Hout : SortIssues go_sort_Slice ex_engine0 cx_issues
            = cx_high :: (cx_low <$> [6; 2; 3; 4; 5; 0; 7; 8; 9; 10; 11; 1]))
    by (by vm_compute).
  split; [exact Hout|]. split.
  { rewrite Hout. apply StronglySorted_sorted_by.
    repeat first [apply SSorted_nil | apply SSorted_cons
                 | apply List.Forall_nil
                 | apply List.Forall_cons; [by vm_compute|]]. }
  split; [by vm_compute|].
  intros Hkeep.
  destruct (Hkeep 0%nat 6%nat (cx_low 0) (cx_low 6)) as (i' & j' & Hlt & Hi & Hj);
    [lia|done|done|by vm_compute|].
  rewrite Hout in Hi, Hj.
  assert (Hi' : i' = 6%nat).
  { do 13 (destruct i' as [|i'];
           [vm_compute in Hi; first [discriminate Hi | reflexivity]|]).
    by vm_compute in Hi. }
  assert (Hj' : j' = 1%nat).
  { do 13 (destruct j' as [|j'];
           [vm_compute in Hj; first [discriminate Hj | reflexivity]|]).
    by vm_compute in Hj. }
  lia.
Qed.

(* ===================================================================== *)
(** * The scenarios of the specification, run *)
(* ===================================================================== *)

(** One record, accepted: the rate of its rule is 1. *)
Example rate_after_acceptance :
  GetAcceptanceRate ex_stored "R1" = 0%float
  ∧ GetAcceptanceRate ex_accepted "R1" = 1%float
  ∧ GetAcceptanceRate ex_accepted "R2" = 0.5%float.
Proof. by vm_compute. Qed.

(** Ten findings of a rule whose rate is 0.2 are all removed, and a finding
    of a rule without history among them is kept. *)
Example filter_low_rate :
  GetAcceptanceRate ex_r2_collector "R2" = 0.2%float
  ∧ FilterIssues ex_r2_engine
      (replicate 5 (LD_Issue (ex_r2_record false)) ++ [ex_issue]
         ++ replicate 5 (LD_Issue (ex_r2_record false)))
    = [ex_issue].
Proof. by vm_compute. Qed.

(** The whole pipeline on three findings over the store in which "R1" was
    accepted once: the confidence of the "R1" finding is raised, and the
    findings come out by score, 3 * 1.0 before 3 * 0.75 before 1 * 0.75. *)
Example apply_learning_run :
  learned_issues
    (ApplyLearning go_sort_Slice [] ["R1"] (mkWorld true true
                     (Stored (issueData ex_accepted)))
                   [cx_low 0; cx_high; ex_issue] "repo" ex_cfg)
  = [set_Confidence ex_issue "high"; cx_high; cx_low 0].
Proof. by vm_compute. Qed.
